(** * OECT transistor-data processing: a shallow embedding of [oect.py]

    The development follows the class [OECT] of [src/oect.py]: the sweep
    splitter [_reverse], the transconductance step [_calc_gm] / [calc_gms],
    the polarity test [quadrant], the inflection finder [_find_peak] and the
    threshold fitter [_min_fit] / [thresh].

    Numbers.  numpy works on IEEE doubles; here a finite double is an exact
    rational ([Q]) and no rounding is modelled.  Values that the code can
    turn into [nan] or [inf] (currents, derived quantities, a division by a
    zero slope) live in [float], which adds the three special values to [Q].
    Voltages read from a file are finite (the loader drops the rows whose
    voltage is not numeric), so a voltage axis is a [list Q].

    Library calls whose numerics are outside the file ([deriv.gm_deriv],
    [scipy.optimize.curve_fit], the spline / wavelet peak search, [np.sqrt],
    the grid laid out by [np.arange], whose length and samples depend on
    rounding) are section variables; what the code itself does with their
    results is written out. *)

From Stdlib Require Import String DecimalString ZArith QArith Qabs Qround Bool Arith Lia Lqa List.
Import ListNotations.

Local Open Scope nat_scope.

Set Implicit Arguments.

(** ** Python results *)

Inductive exn : Type :=
| IndexError
| ValueError
| AttributeError
| LibraryError.

Inductive result (A : Type) : Type :=
| Ok (a : A)
| Raise (e : exn).

Arguments Ok {A} a.
Arguments Raise {A} e.

Definition bind {A B : Type} (r : result A) (k : A -> result B) : result B :=
  match r with
  | Ok a => k a
  | Raise e => Raise e
  end.

Declare Scope py_scope.
Delimit Scope py_scope with py.
Notation "x <- c ;; k" := (bind c (fun x => k))
  (at level 61, c at next level, right associativity) : py_scope.
Notation "' p <- c ;; k" := (bind c (fun x => let p := x in k))
  (at level 61, p pattern, c at next level, right associativity) : py_scope.
Local Open Scope py_scope.

(** ** Sequences: slices, flips, indexing *)

Section Sequences.
Variable A : Type.

(** [v[a:b]] for non-negative [a], [b] (clamped to the length by Python). *)
Definition slice (a b : nat) (v : list A) : list A := skipn a (firstn b v).

(** [v[:b]] *)
Definition slice_to (b : nat) (v : list A) : list A := firstn b v.

(** [v[a:]] *)
Definition slice_from (a : nat) (v : list A) : list A := skipn a v.

(** [np.flip(v)] on a one-dimensional array. *)
Definition flip (v : list A) : list A := rev v.

(** [v[i]] for a non-negative [i]. *)
Definition getitem (v : list A) (i : nat) : result A :=
  match nth_error v i with
  | Some a => Ok a
  | None => Raise IndexError
  end.

(** Element-wise test of two arrays of equal length, [all] of the result. *)
Fixpoint all2 (f : A -> A -> bool) (x y : list A) : bool :=
  match x, y with
  | a :: x', b :: y' => f a b && all2 f x' y'
  | _, _ => true
  end.
End Sequences.

(** ** [np.isclose] / [np.allclose] *)

Definition rtol : Q := 1 # 100000.
Definition atol : Q := 1 # 100000000.

(** [abs(a - b) <= atol + rtol * abs(b)], numpy's defaults. *)
Definition isclose (a b : Q) : bool :=
  Qle_bool (Qabs (a - b)) (atol + rtol * Qabs b).

(** [np.allclose(x, y)]: the two shapes are broadcast first; one-dimensional
    shapes are compatible when they are equal or one of them is 1. *)
Definition allclose (x y : list Q) : result bool :=
  if length x =? length y then Ok (all2 isclose x y)
  else if length y =? 1 then Ok (forallb (fun a => isclose a (hd 0%Q y)) x)
  else if length x =? 1 then Ok (forallb (fun b => isclose (hd 0%Q x) b) y)
  else Raise ValueError.

(** ** SweepSplitter: [OECT._reverse]

    The value returned, [(mx, flag)].  The attributes written when
    [transfer=True] are made by [_reverse_self] further down. *)

Definition midpoint (v : list Q) : nat := length v / 2 + 1.

Definition _reverse (v : list Q) : result (nat * bool) :=
  let x := if Nat.odd (length v)
           then slice_to (length v / 2) v
           else slice 1 (length v / 2) v in
  let y := flip (slice_from (midpoint v) v) in
  reverse <- allclose x y ;;
  if (reverse : bool)
  then Ok (midpoint v - 1, true)
  else Ok (length v - 1, false).

(** *** Sweep shapes *)

(** A sweep whose second half is the reverse of the first. *)
Definition symmetric (v : list Q) : Prop := rev v = v.

(** Neighbouring samples related by [R]. *)
Fixpoint steps (R : Q -> Q -> Prop) (v : list Q) : Prop :=
  match v with
  | a :: (b :: _) as t => R a b /\ steps R t
  | _ => True
  end.

Definition strictly_increasing (v : list Q) : Prop := steps Qlt v.
Definition strictly_decreasing (v : list Q) : Prop := steps (fun a b => (b < a)%Q) v.
Definition strictly_monotonic (v : list Q) : Prop :=
  strictly_increasing v \/ strictly_decreasing v.

(** Neighbouring samples are further apart than the [allclose] tolerance. *)
Definition resolved (v : list Q) : Prop := steps (fun a b => isclose a b = false) v.

(** ** Doubles with their special values

    [Fin q] is a finite double; arithmetic on finite values is exact.  Zero
    has no sign here: a division of a non-zero value by zero gives the
    infinity of the numerator's sign, as numpy does for [+0.0]. *)

Inductive float : Type :=
| Fin (q : Q)
| PInf
| NInf
| NaN.

Definition Qltb (a b : Q) : bool := negb (Qle_bool b a).

Definition is_nan (x : float) : bool :=
  match x with NaN => true | _ => false end.

Definition sgn (x : float) : Z :=
  match x with
  | Fin q => Z.sgn (Qnum q)
  | PInf => 1
  | NInf => -1
  | NaN => 0
  end.

Definition inf_of_sign (z : Z) : float :=
  match z with
  | Z0 => NaN
  | Zpos _ => PInf
  | Zneg _ => NInf
  end.

Definition fneg (x : float) : float :=
  match x with
  | Fin q => Fin (- q)
  | PInf => NInf
  | NInf => PInf
  | NaN => NaN
  end.

Definition fabs (x : float) : float :=
  match x with
  | Fin q => Fin (Qabs q)
  | PInf | NInf => PInf
  | NaN => NaN
  end.

Definition fadd (x y : float) : float :=
  match x, y with
  | NaN, _ | _, NaN => NaN
  | Fin a, Fin b => Fin (a + b)
  | PInf, NInf | NInf, PInf => NaN
  | PInf, _ | _, PInf => PInf
  | NInf, _ | _, NInf => NInf
  end.

Definition fsub (x y : float) : float := fadd x (fneg y).

Definition fmul (x y : float) : float :=
  match x, y with
  | NaN, _ | _, NaN => NaN
  | Fin a, Fin b => Fin (a * b)
  | _, _ => inf_of_sign (sgn x * sgn y)
  end.

Definition fdiv (x y : float) : float :=
  match x, y with
  | NaN, _ | _, NaN => NaN
  | Fin a, Fin b => if Qeq_bool b 0 then inf_of_sign (sgn x) else Fin (a / b)
  | Fin _, _ => Fin 0
  | _, Fin b => inf_of_sign (sgn x * (if Qeq_bool b 0 then 1 else sgn y))
  | _, _ => NaN
  end.

(** [x < y] on doubles: false as soon as one side is [nan]. *)
Definition flt (x y : float) : bool :=
  match x, y with
  | NaN, _ | _, NaN => false
  | Fin a, Fin b => Qltb a b
  | NInf, NInf => false
  | NInf, _ => true
  | _, NInf => false
  | PInf, _ => false
  | Fin _, PInf => true
  end.

Definition fle (x y : float) : bool :=
  match x, y with
  | NaN, _ | _, NaN => false
  | _, _ => negb (flt y x)
  end.

(** *** numpy reductions *)

(** One scan for [np.argmax] / [np.argmin]: the first [nan] wins, otherwise
    the first element that [better] than all before it. *)
Fixpoint arg_scan (better : float -> float -> bool) (l : list float)
         (i besti : nat) (best : float) : nat :=
  match l with
  | [] => besti
  | x :: t =>
      if is_nan best then besti
      else if is_nan x || better x best
           then arg_scan better t (S i) i x
           else arg_scan better t (S i) besti best
  end.

Definition np_argmax (l : list float) : result nat :=
  match l with
  | [] => Raise ValueError
  | x :: t => Ok (arg_scan (fun a b => flt b a) t 1 0 x)
  end.

Definition np_argmin (l : list float) : result nat :=
  match l with
  | [] => Raise ValueError
  | x :: t => Ok (arg_scan flt t 1 0 x)
  end.

Definition np_max (l : list float) : result float :=
  i <- np_argmax l ;; Ok (nth i l NaN).

Definition np_min (l : list float) : result float :=
  i <- np_argmin l ;; Ok (nth i l NaN).

Definition np_sum (l : list float) : float := fold_left fadd l (Fin 0).

(** [np.mean]: [nan] (and a warning) on an empty array. *)
Definition np_mean (l : list float) : float :=
  fdiv (np_sum l) (Fin (inject_Z (Z.of_nat (length l)))).

(** [np.searchsorted(V, key)] (side ['left']): numpy's bisection, with its
    ordering of doubles in which [nan] is larger than every number. *)
Definition key_above (a : Q) (key : float) : bool :=
  is_nan key || flt (Fin a) key.

Fixpoint bisect (fuel lo hi : nat) (V : list Q) (key : float) : nat :=
  match fuel with
  | 0 => lo
  | S fuel' =>
      if lo <? hi then
        let mid := lo + (hi - lo) / 2 in
        if key_above (nth mid V 0%Q) key
        then bisect fuel' (mid + 1) hi V key
        else bisect fuel' lo mid V key
      else lo
  end.

Definition searchsorted (V : list Q) (key : float) : nat :=
  bisect (length V) 0 (length V) V key.

(** ** pandas containers *)

(** A [Series] / one-column [DataFrame]: rows (label, value). *)
Definition series : Type := list (Q * float).

(** A [DataFrame]: a shared index and named columns of that length. *)
Record frame : Type := {
  f_index : list Q;
  f_columns : list (string * list float)
}.

Definition empty_frame : frame := {| f_index := []; f_columns := [] |}.

(** A [dict] in insertion order. *)
Section Dict.
Variable A : Type.

Fixpoint dict_set (k : string) (a : A) (d : list (string * A)) : list (string * A) :=
  match d with
  | [] => [(k, a)]
  | (k', a') :: d' =>
      if String.eqb k k' then (k, a) :: d' else (k', a') :: dict_set k a d'
  end.

Definition dict_mem (k : string) (d : list (string * A)) : bool :=
  existsb (fun p => String.eqb k (fst p)) d.
End Dict.

(** [Series.sort_index]: rows in ascending label order.  pandas does not
    fix the order in which rows of equal label come out (its default sort is
    not stable); here they keep their order, and nothing below relies on
    it. *)
Fixpoint insert_row (r : Q * float) (s : series) : series :=
  match s with
  | [] => [r]
  | r' :: s' => if Qltb (fst r) (fst r') then r :: r' :: s' else r' :: insert_row r s'
  end.

Definition sort_index (s : series) : series := fold_right insert_row [] (rev s).

Fixpoint labels_equal (a b : list Q) : bool :=
  match a, b with
  | [], [] => true
  | x :: a', y :: b' => Qeq_bool x y && labels_equal a' b'
  | _, _ => false
  end.

Fixpoint labels_unique (a : list Q) : bool :=
  match a with
  | [] => true
  | x :: a' => negb (existsb (Qeq_bool x) a') && labels_unique a'
  end.

Definition at_label (s : series) (l : Q) : float :=
  match find (fun r => Qeq_bool (fst r) l) s with
  | Some r => snd r
  | None => NaN
  end.

(** [fr[nm] = s]: a frame without rows takes the index of a non-empty
    series; otherwise the series is aligned on the frame's index, labels it
    lacks becoming [nan]; aligning a series with repeated labels on a
    different index raises. *)
Definition frame_set (fr : frame) (nm : string) (s : series) : result frame :=
  let idx := map fst s in
  if (length (f_index fr) =? 0) && negb (length s =? 0) then
    Ok {| f_index := idx;
          f_columns := dict_set nm (map snd s)
                         (map (fun c => (fst c, repeat NaN (length idx))) (f_columns fr)) |}
  else if labels_equal idx (f_index fr) then
    Ok {| f_index := f_index fr;
          f_columns := dict_set nm (map snd s) (f_columns fr) |}
  else if labels_unique idx then
    Ok {| f_index := f_index fr;
          f_columns := dict_set nm (map (at_label s) (f_index fr)) (f_columns fr) |}
  else Raise ValueError.

Definition column_names (fr : frame) : list string := map fst (f_columns fr).

(** ** The device object

    The attributes of [OECT] that the processing steps read or write.  The
    processing options modelled are [gm_method] and [Reverse]; [Average] and
    [V_low] are at their defaults ([False]), so the two blocks of
    [all_transfers] they guard are not entered.  [thresh] is modelled with
    [plot=False]. *)

Inductive quadrant_t : Type := QI | QIII.

Record OECT : Type := {
  transfer : list (string * series);  (* dict: one [I_DS] curve per transfer file *)
  transfers : frame;  (* all legs of all transfer curves, one column per leg *)
  Vd_labels : list string;
  opt_gm_method : string;  (* [options['gm_method']] *)
  opt_Reverse : bool;  (* [options['Reverse']] *)
  reverse : bool;
  rev_point : option nat;  (* [np.nan] until a transfer curve has been split *)
  rev_v : option Q;
  gm_fwd : list (string * series);
  gm_bwd : list (string * series);
  gms : frame;
  gm_peaks : option series;  (* unset until [calc_gms] has run a curve; rows (peak voltage, peak gm) *)
  peak_gm : option (list float);
  quad : option quadrant_t;  (* not an attribute until [quadrant] assigns it *)
  Vt : float;
  Vts : option (list float);  (* [np.nan] until [thresh] completes *)
  VgVt : option float;
  VgVts : option (list float)
}.

Definition set_transfer (x : list (string * series)) (s : OECT) : OECT :=
  {| transfer := x; transfers := transfers s; Vd_labels := Vd_labels s;
     opt_gm_method := opt_gm_method s; opt_Reverse := opt_Reverse s;
     reverse := reverse s; rev_point := rev_point s; rev_v := rev_v s;
     gm_fwd := gm_fwd s; gm_bwd := gm_bwd s; gms := gms s; gm_peaks := gm_peaks s;
     peak_gm := peak_gm s; quad := quad s; Vt := Vt s; Vts := Vts s; VgVt := VgVt s;
     VgVts := VgVts s |}.

Definition set_transfers (x : frame) (s : OECT) : OECT :=
  {| transfer := transfer s; transfers := x; Vd_labels := Vd_labels s;
     opt_gm_method := opt_gm_method s; opt_Reverse := opt_Reverse s;
     reverse := reverse s; rev_point := rev_point s; rev_v := rev_v s;
     gm_fwd := gm_fwd s; gm_bwd := gm_bwd s; gms := gms s; gm_peaks := gm_peaks s;
     peak_gm := peak_gm s; quad := quad s; Vt := Vt s; Vts := Vts s; VgVt := VgVt s;
     VgVts := VgVts s |}.

Definition set_Vd_labels (x : list string) (s : OECT) : OECT :=
  {| transfer := transfer s; transfers := transfers s; Vd_labels := x;
     opt_gm_method := opt_gm_method s; opt_Reverse := opt_Reverse s;
     reverse := reverse s; rev_point := rev_point s; rev_v := rev_v s;
     gm_fwd := gm_fwd s; gm_bwd := gm_bwd s; gms := gms s; gm_peaks := gm_peaks s;
     peak_gm := peak_gm s; quad := quad s; Vt := Vt s; Vts := Vts s; VgVt := VgVt s;
     VgVts := VgVts s |}.

Definition set_opt_gm_method (x : string) (s : OECT) : OECT :=
  {| transfer := transfer s; transfers := transfers s; Vd_labels := Vd_labels s;
     opt_gm_method := x; opt_Reverse := opt_Reverse s; reverse := reverse s;
     rev_point := rev_point s; rev_v := rev_v s; gm_fwd := gm_fwd s;
     gm_bwd := gm_bwd s; gms := gms s; gm_peaks := gm_peaks s; peak_gm := peak_gm s;
     quad := quad s; Vt := Vt s; Vts := Vts s; VgVt := VgVt s; VgVts := VgVts s |}.

Definition set_opt_Reverse (x : bool) (s : OECT) : OECT :=
  {| transfer := transfer s; transfers := transfers s; Vd_labels := Vd_labels s;
     opt_gm_method := opt_gm_method s; opt_Reverse := x; reverse := reverse s;
     rev_point := rev_point s; rev_v := rev_v s; gm_fwd := gm_fwd s;
     gm_bwd := gm_bwd s; gms := gms s; gm_peaks := gm_peaks s; peak_gm := peak_gm s;
     quad := quad s; Vt := Vt s; Vts := Vts s; VgVt := VgVt s; VgVts := VgVts s |}.

Definition set_reverse (x : bool) (s : OECT) : OECT :=
  {| transfer := transfer s; transfers := transfers s; Vd_labels := Vd_labels s;
     opt_gm_method := opt_gm_method s; opt_Reverse := opt_Reverse s; reverse := x;
     rev_point := rev_point s; rev_v := rev_v s; gm_fwd := gm_fwd s;
     gm_bwd := gm_bwd s; gms := gms s; gm_peaks := gm_peaks s; peak_gm := peak_gm s;
     quad := quad s; Vt := Vt s; Vts := Vts s; VgVt := VgVt s; VgVts := VgVts s |}.

Definition set_rev_point (x : option nat) (s : OECT) : OECT :=
  {| transfer := transfer s; transfers := transfers s; Vd_labels := Vd_labels s;
     opt_gm_method := opt_gm_method s; opt_Reverse := opt_Reverse s;
     reverse := reverse s; rev_point := x; rev_v := rev_v s; gm_fwd := gm_fwd s;
     gm_bwd := gm_bwd s; gms := gms s; gm_peaks := gm_peaks s; peak_gm := peak_gm s;
     quad := quad s; Vt := Vt s; Vts := Vts s; VgVt := VgVt s; VgVts := VgVts s |}.

Definition set_rev_v (x : option Q) (s : OECT) : OECT :=
  {| transfer := transfer s; transfers := transfers s; Vd_labels := Vd_labels s;
     opt_gm_method := opt_gm_method s; opt_Reverse := opt_Reverse s;
     reverse := reverse s; rev_point := rev_point s; rev_v := x; gm_fwd := gm_fwd s;
     gm_bwd := gm_bwd s; gms := gms s; gm_peaks := gm_peaks s; peak_gm := peak_gm s;
     quad := quad s; Vt := Vt s; Vts := Vts s; VgVt := VgVt s; VgVts := VgVts s |}.

Definition set_gm_fwd (x : list (string * series)) (s : OECT) : OECT :=
  {| transfer := transfer s; transfers := transfers s; Vd_labels := Vd_labels s;
     opt_gm_method := opt_gm_method s; opt_Reverse := opt_Reverse s;
     reverse := reverse s; rev_point := rev_point s; rev_v := rev_v s; gm_fwd := x;
     gm_bwd := gm_bwd s; gms := gms s; gm_peaks := gm_peaks s; peak_gm := peak_gm s;
     quad := quad s; Vt := Vt s; Vts := Vts s; VgVt := VgVt s; VgVts := VgVts s |}.

Definition set_gm_bwd (x : list (string * series)) (s : OECT) : OECT :=
  {| transfer := transfer s; transfers := transfers s; Vd_labels := Vd_labels s;
     opt_gm_method := opt_gm_method s; opt_Reverse := opt_Reverse s;
     reverse := reverse s; rev_point := rev_point s; rev_v := rev_v s;
     gm_fwd := gm_fwd s; gm_bwd := x; gms := gms s; gm_peaks := gm_peaks s;
     peak_gm := peak_gm s; quad := quad s; Vt := Vt s; Vts := Vts s; VgVt := VgVt s;
     VgVts := VgVts s |}.

Definition set_gms (x : frame) (s : OECT) : OECT :=
  {| transfer := transfer s; transfers := transfers s; Vd_labels := Vd_labels s;
     opt_gm_method := opt_gm_method s; opt_Reverse := opt_Reverse s;
     reverse := reverse s; rev_point := rev_point s; rev_v := rev_v s;
     gm_fwd := gm_fwd s; gm_bwd := gm_bwd s; gms := x; gm_peaks := gm_peaks s;
     peak_gm := peak_gm s; quad := quad s; Vt := Vt s; Vts := Vts s; VgVt := VgVt s;
     VgVts := VgVts s |}.

Definition set_gm_peaks (x : option series) (s : OECT) : OECT :=
  {| transfer := transfer s; transfers := transfers s; Vd_labels := Vd_labels s;
     opt_gm_method := opt_gm_method s; opt_Reverse := opt_Reverse s;
     reverse := reverse s; rev_point := rev_point s; rev_v := rev_v s;
     gm_fwd := gm_fwd s; gm_bwd := gm_bwd s; gms := gms s; gm_peaks := x;
     peak_gm := peak_gm s; quad := quad s; Vt := Vt s; Vts := Vts s; VgVt := VgVt s;
     VgVts := VgVts s |}.

Definition set_peak_gm (x : option (list float)) (s : OECT) : OECT :=
  {| transfer := transfer s; transfers := transfers s; Vd_labels := Vd_labels s;
     opt_gm_method := opt_gm_method s; opt_Reverse := opt_Reverse s;
     reverse := reverse s; rev_point := rev_point s; rev_v := rev_v s;
     gm_fwd := gm_fwd s; gm_bwd := gm_bwd s; gms := gms s; gm_peaks := gm_peaks s;
     peak_gm := x; quad := quad s; Vt := Vt s; Vts := Vts s; VgVt := VgVt s;
     VgVts := VgVts s |}.

Definition set_quad (x : option quadrant_t) (s : OECT) : OECT :=
  {| transfer := transfer s; transfers := transfers s; Vd_labels := Vd_labels s;
     opt_gm_method := opt_gm_method s; opt_Reverse := opt_Reverse s;
     reverse := reverse s; rev_point := rev_point s; rev_v := rev_v s;
     gm_fwd := gm_fwd s; gm_bwd := gm_bwd s; gms := gms s; gm_peaks := gm_peaks s;
     peak_gm := peak_gm s; quad := x; Vt := Vt s; Vts := Vts s; VgVt := VgVt s;
     VgVts := VgVts s |}.

Definition set_Vt (x : float) (s : OECT) : OECT :=
  {| transfer := transfer s; transfers := transfers s; Vd_labels := Vd_labels s;
     opt_gm_method := opt_gm_method s; opt_Reverse := opt_Reverse s;
     reverse := reverse s; rev_point := rev_point s; rev_v := rev_v s;
     gm_fwd := gm_fwd s; gm_bwd := gm_bwd s; gms := gms s; gm_peaks := gm_peaks s;
     peak_gm := peak_gm s; quad := quad s; Vt := x; Vts := Vts s; VgVt := VgVt s;
     VgVts := VgVts s |}.

Definition set_Vts (x : option (list float)) (s : OECT) : OECT :=
  {| transfer := transfer s; transfers := transfers s; Vd_labels := Vd_labels s;
     opt_gm_method := opt_gm_method s; opt_Reverse := opt_Reverse s;
     reverse := reverse s; rev_point := rev_point s; rev_v := rev_v s;
     gm_fwd := gm_fwd s; gm_bwd := gm_bwd s; gms := gms s; gm_peaks := gm_peaks s;
     peak_gm := peak_gm s; quad := quad s; Vt := Vt s; Vts := x; VgVt := VgVt s;
     VgVts := VgVts s |}.

Definition set_VgVt (x : option float) (s : OECT) : OECT :=
  {| transfer := transfer s; transfers := transfers s; Vd_labels := Vd_labels s;
     opt_gm_method := opt_gm_method s; opt_Reverse := opt_Reverse s;
     reverse := reverse s; rev_point := rev_point s; rev_v := rev_v s;
     gm_fwd := gm_fwd s; gm_bwd := gm_bwd s; gms := gms s; gm_peaks := gm_peaks s;
     peak_gm := peak_gm s; quad := quad s; Vt := Vt s; Vts := Vts s; VgVt := x;
     VgVts := VgVts s |}.

Definition set_VgVts (x : option (list float)) (s : OECT) : OECT :=
  {| transfer := transfer s; transfers := transfers s; Vd_labels := Vd_labels s;
     opt_gm_method := opt_gm_method s; opt_Reverse := opt_Reverse s;
     reverse := reverse s; rev_point := rev_point s; rev_v := rev_v s;
     gm_fwd := gm_fwd s; gm_bwd := gm_bwd s; gms := gms s; gm_peaks := gm_peaks s;
     peak_gm := peak_gm s; quad := quad s; Vt := Vt s; Vts := Vts s; VgVt := VgVt s;
     VgVts := x |}.

(** The object as [__init__] leaves it before [loaddata], for the given
    options. *)
Definition init (method : string) (Reverse : bool) : OECT :=
  {| transfer := []; transfers := empty_frame; Vd_labels := [];
     opt_gm_method := method; opt_Reverse := Reverse;
     reverse := false; rev_point := None; rev_v := None;
     gm_fwd := []; gm_bwd := []; gms := empty_frame;
     gm_peaks := None; peak_gm := None; quad := None;
     Vt := NaN; Vts := None; VgVt := None; VgVts := None |}.

(** [len(self.transfers.columns)], stored as [num_transfers] by [loaddata]. *)
Definition num_transfers (s : OECT) : nat := length (f_columns (transfers s)).

(** ** Methods: a computation on the object that may raise.  The object
    keeps the writes made before an exception. *)

Definition M (A : Type) : Type := OECT -> result A * OECT.

Definition ret {A : Type} (a : A) : M A := fun s => (Ok a, s).
Definition raise {A : Type} (e : exn) : M A := fun s => (Raise e, s).
Definition lift {A : Type} (r : result A) : M A := fun s => (r, s).
Definition reads {A : Type} (f : OECT -> A) : M A := fun s => (Ok (f s), s).
Definition writes (f : OECT -> OECT) : M unit := fun s => (Ok tt, f s).

Definition bindM {A B : Type} (m : M A) (k : A -> M B) : M B :=
  fun s =>
    match m s with
    | (Ok a, s') => k a s'
    | (Raise e, s') => (Raise e, s')
    end.

Notation "x <~ c ;; k" := (bindM c (fun x => k))
  (at level 61, c at next level, right associativity) : py_scope.
Notation "' p <~ c ;; k" := (bindM c (fun x => let p := x in k))
  (at level 61, p pattern, c at next level, right associativity) : py_scope.
Notation "c ;;; k" := (bindM c (fun _ => k))
  (at level 61, right associativity) : py_scope.

(** Reading an attribute that may not have been assigned yet. *)
Definition attr {A : Type} (f : OECT -> option A) : M A :=
  fun s =>
    match f s with
    | Some a => (Ok a, s)
    | None => (Raise AttributeError, s)
    end.

Definition outcome {A : Type} (r : result A * OECT) : result A := fst r.
Definition final {A : Type} (r : result A * OECT) : OECT := snd r.

(** ** [_reverse] as a method: the writes made when [transfer=True] *)

Definition _reverse_self (v : list Q) (transfer : bool) : M (nat * bool) :=
  r <~ lift (_reverse v) ;;
  let mx := fst r in
  let flag := snd r in
  if transfer then
    writes (set_rev_point (Some mx)) ;;;
    rv <~ lift (getitem v mx) ;;
    writes (set_rev_v (Some rv)) ;;;
    writes (set_opt_Reverse flag) ;;;
    writes (set_reverse flag) ;;;
    ret (mx, flag)
  else ret (mx, flag).

(** ** [all_transfers]

    The loop over [self.transfer].  The two blocks that follow it in the
    source are entered only with the options [Average] and [V_low] set;
    they rest on [DataFrame.mean(1)] and on label slicing and are not
    modelled: [all_transfers] below is the method with both options at
    their default [False]. *)

Definition store_leg (nm : string) (idx : list Q) (vals : list float) : M unit :=
  fr <~ reads transfers ;;
  fr' <~ lift (frame_set fr nm (sort_index (combine idx vals))) ;;
  writes (set_transfers fr').

Fixpoint all_transfers_loop (d : list (string * series)) : M unit :=
  match d with
  | [] => ret tt
  | (tf, df) :: d' =>
      labels <~ reads Vd_labels ;;
      writes (set_Vd_labels (labels ++ [tf])) ;;;
      let transfer_ := map snd df in
      let idx := map fst df in
      r <~ _reverse_self idx true ;;
      let mx := fst r in
      store_leg (tf ++ "_01") (slice_to mx idx) (slice_to mx transfer_) ;;;
      (if snd r
       then store_leg (tf ++ "_02") (slice_from mx idx) (slice_from mx transfer_)
       else ret tt) ;;;
      all_transfers_loop d'
  end.

Definition all_transfers : M unit :=
  d <~ reads transfer ;; all_transfers_loop d.

(** ** [quadrant] *)

Definition any_negative (l : list Q) : bool := existsb (fun v => Qltb v 0) l.
Definition any_positive (l : list Q) : bool := existsb (fun v => Qltb 0 v) l.

(** The assignment [quadrant] makes for the index of [gm_peaks], if any. *)
Definition quadrant_choice (peak_v : list Q) : option quadrant_t :=
  if any_negative peak_v then Some QIII
  else if any_positive peak_v then Some QI
  else None.

Definition quadrant : M unit :=
  pks <~ attr gm_peaks ;;
  match quadrant_choice (map fst pks) with
  | Some q => writes (set_quad (Some q))
  | None => ret tt
  end.

(** ** Element-wise arithmetic *)

(** [a - b] on arrays, with numpy's broadcasting of one-dimensional shapes. *)
Definition np_sub (a b : list float) : result (list float) :=
  if length a =? length b then Ok (map (fun p => fsub (fst p) (snd p)) (combine a b))
  else if length b =? 1 then Ok (map (fun x => fsub x (hd NaN b)) a)
  else if length a =? 1 then Ok (map (fun y => fsub (hd NaN a) y) b)
  else Raise ValueError.

(** [line_f(x, f0, f1)] *)
Definition line_f (x : list Q) (f0 f1 : Q) : list float :=
  map (fun xi => Fin (f1 + f0 * xi)) x.

Fixpoint map_result {A B : Type} (f : A -> result B) (l : list A) : result (list B) :=
  match l with
  | [] => Ok []
  | a :: l' => b <- f a ;; bs <- map_result f l' ;; Ok (b :: bs)
  end.

(** ** [curve_fit] bounds, as the call in [_min_fit] writes them:
    [(lower, upper)], one entry per parameter [(f0, f1)]. *)
Definition bounds : Type := (list float * list float)%type.

Definition fit_bounds : bounds := ([NInf; NInf], [Fin 0; PInf]).

Definition in_bounds (b : bounds) (p : Q * Q) : bool :=
  fle (nth 0 (fst b) NInf) (Fin (fst p)) && fle (Fin (fst p)) (nth 0 (snd b) PInf) &&
  fle (nth 1 (fst b) NInf) (Fin (snd p)) && fle (Fin (snd p)) (nth 1 (snd b) PInf).

(** [peaks[peaks > 5]] *)
Definition edge_filter (peaks : list nat) : list nat := filter (fun p => 5 <? p) peaks.

(** The [width] default of [_find_peak], and the width of the second call
    in [_min_fit]. *)
Definition default_width : nat := 15.
Definition retry_width : nat := 15.

Record fitparams : Type := { window : nat; polyorder : nat; deg : nat }.

(** ** The processing steps, over the library calls they make *)

Section Pipeline.

(** [deriv.gm_deriv(v, i, method, fitparams)]: the gm values, one array. *)
Variable gm_deriv : list Q -> list float -> string -> fitparams -> result (list float).

(** [np.sqrt] on a non-negative finite double. *)
Variable np_sqrt : Q -> Q.

(** [scipy.interpolate.UnivariateSpline(V, I, k=5, s=1e-7)]. *)
Variable Spline : Type.
Variable UnivariateSpline : list Q -> list float -> result Spline.

(** [np.arange(start, stop, step)] on doubles: the number of samples and
    the samples themselves are rounded by numpy, so the grid is left to
    the library. *)
Variable np_arange : Q -> Q -> Q -> list Q.

(** [find_peaks_cwt(np.gradient(np.gradient(spl(V_spl))), widths)]: the
    peak positions in the resampled second derivative. *)
Variable d2_peaks : Spline -> list Q -> list nat -> result (list nat).

(** [scipy.optimize.curve_fit(line_f, x, y, bounds=b)[0]]. *)
Variable curve_fit : list Q -> list float -> bounds -> result (Q * Q).

Definition fsqrt (x : float) : float :=
  match x with
  | Fin q => if Qltb q 0 then NaN else Fin (np_sqrt q)
  | PInf => PInf
  | NInf | NaN => NaN
  end.

(** *** DerivativeEngine: [_calc_gm] *)

(** The inner [get_gm]: a one-column frame of [gml] indexed by [v]. *)
Definition get_gm (v : list Q) (i : list float) (fit : string) (options : fitparams)
  : result series :=
  gml <- gm_deriv v i fit options ;;
  if length gml =? length v then Ok (combine v gml) else Raise ValueError.

(** The pair appended to [gm_args] / [gm_peaks] for one gm curve:
    [index[np.argmax(values)]] and [np.max(values)]. *)
Definition gm_peak (gm : series) : result (Q * float) :=
  pk <- np_max (map snd gm) ;;
  ix <- np_argmax (map snd gm) ;;
  arg <- getitem (map fst gm) ix ;;
  Ok (arg, pk).

Definition _calc_gm (s : OECT) (df : series)
  : result (series * series * series) :=
  let v := map fst df in
  let i := map snd df in
  mx <- match rev_point s with Some mx => Ok mx | None => Raise IndexError end ;;
  _ <- getitem v 0 ;;
  _ <- getitem v mx ;;
  let vl_lo := slice_to mx v in
  let fitparams_ :=
    {| window := Nat.max (length (f_index (transfers s)) / 25) 3;
       polyorder := 2; deg := 8 |} in
  gm_fwd_ <- get_gm vl_lo (slice 0 mx i) (opt_gm_method s) fitparams_ ;;
  p1 <- gm_peak gm_fwd_ ;;
  if reverse s then
    let vl_hi := flip (slice_from mx v) in
    let i_hi := flip (slice_from mx i) in
    gm_bwd_ <- get_gm vl_hi i_hi (opt_gm_method s) fitparams_ ;;
    p2 <- gm_peak gm_bwd_ ;;
    Ok (gm_fwd_, gm_bwd_, [p1; p2])
  else
    Ok (gm_fwd_, [], [p1]).

(** *** [calc_gms] *)

Fixpoint calc_gms_loop (d : list (string * series)) : M unit :=
  match d with
  | [] => ret tt
  | (i, df) :: d' =>
      r <~ (fun s => (_calc_gm s df, s)) ;;
      fwd <~ reads gm_fwd ;;
      writes (set_gm_fwd (dict_set i (fst (fst r)) fwd)) ;;;
      bwd <~ reads gm_bwd ;;
      writes (set_gm_bwd (dict_set i (snd (fst r)) bwd)) ;;;
      writes (set_gm_peaks (Some (snd r))) ;;;
      calc_gms_loop d'
  end.

Definition str (n : nat) : string := NilEmpty.string_of_uint (Nat.to_uint n).

(** [g[:-1]] *)
Definition drop_last (g : string) : string := substring 0 (String.length g - 1) g.

(** The [while nm in self.gms] loop; at most one round per column and one
    more, the names tried after the first being pairwise distinct. *)
Fixpoint fresh_name (fuel : nat) (cols : list (string * list float))
         (g : string) (labels : nat) (nm : string) : nat * string :=
  match fuel with
  | 0 => (labels, nm)
  | S fuel' =>
      if dict_mem nm cols
      then fresh_name fuel' cols g (S labels) ("gm_" ++ drop_last g ++ str (S labels))
      else (labels, nm)
  end.

Fixpoint gather_gms (d : list (string * series)) (labels : nat) : M nat :=
  match d with
  | [] => ret labels
  | (g, gm) :: d' =>
      match gm with
      | [] => gather_gms d' labels
      | _ :: _ =>
          fr <~ reads gms ;;
          let ln := fresh_name (S (length (f_columns fr))) (f_columns fr) g labels ("gm_" ++ g) in
          fr' <~ lift (frame_set fr (snd ln) (sort_index gm)) ;;
          writes (set_gms fr') ;;;
          gather_gms d' (fst ln)
      end
  end.

Definition calc_gms : M unit :=
  d <~ reads transfer ;;
  calc_gms_loop d ;;;
  fwd <~ reads gm_fwd ;;
  labels <~ gather_gms fwd 0 ;;
  bwd <~ reads gm_bwd ;;
  _ <~ gather_gms bwd labels ;;
  pks <~ attr gm_peaks ;;
  writes (set_peak_gm (Some (map snd pks))).

(** *** InflectionFinder: [_find_peak] *)

Definition _find_peak (I : list float) (V : list Q) (width : nat) : result (list nat) :=
  Id_spl <- UnivariateSpline V I ;;
  v_first <- getitem V 0 ;;
  v_last <- getitem V (length V - 1) ;;
  let V_spl := np_arange v_first v_last 0.005 in
  peaks <- d2_peaks Id_spl V_spl (seq 1 (width - 1)) ;;
  let peaks := edge_filter peaks in
  map_result (fun p => x <- getitem V_spl p ;; Ok (searchsorted V (Fin x))) peaks.

(** *** ThresholdFitter: [_min_fit] *)

(** [-fit[1] / fit[0]] *)
Definition x_intercept (fit : Q * Q) : float :=
  fdiv (fneg (Fin (snd fit))) (Fin (fst fit)).

(** One round of the loop over the candidate peaks: the fit and its
    residual up to the fitted intercept. *)
Definition fit_candidate (Id : list float) (V : list Q) (m : nat)
  : result ((Q * Q) * float) :=
  fit <- curve_fit (slice_to m V) (slice_to m Id) fit_bounds ;;
  let v_x := searchsorted V (x_intercept fit) in
  d <- np_sub (slice_to v_x Id) (line_f (slice_to v_x V) (fst fit) (snd fit)) ;;
  Ok (fit, np_sum (map (fun e => fmul e e) d)).

Definition _min_fit (Id : list float) (V : list Q) : M (Q * Q) :=
  v2 <~ lift (getitem V 2) ;;
  v1 <~ lift (getitem V 1) ;;
  let flipped := Qltb v2 v1 in
  let V := if flipped then flip V else V in
  let Id := if flipped then flip Id else Id in
  quadrant ;;;
  q <~ attr quad ;;
  let Id := match q with QI => flip Id | QIII => Id end in
  let V := match q with QI => flip (map Qopp V) | QIII => V end in
  let scaled := map (fun x => fmul x (Fin 1000)) Id in
  mx_d2 <~ lift (_find_peak scaled V default_width) ;;
  mx_d2 <~ match mx_d2 with
           | [] => lift (_find_peak scaled V retry_width)
           | _ :: _ => ret mx_d2
           end ;;
  cands <~ lift (map_result (fit_candidate Id V) mx_d2) ;;
  match cands with
  | [] => raise IndexError
  | _ :: _ =>
      k <~ lift (np_argmin (map snd cands)) ;;
      fit <~ lift (getitem (map fst cands) k) ;;
      ret match q with
          | QI => ((- fst fit)%Q, snd fit)
          | QIII => fit
          end
  end.

(** *** [thresh] *)

Definition column (fr : frame) (tf : string) : list float :=
  match find (fun c => String.eqb tf (fst c)) (f_columns fr) with
  | Some c => snd c
  | None => []
  end.

(** The fit of one column, [v_lo] being the index of the frame. *)
Definition thresh_curve (fr : frame) (tf : string) : M (Q * Q) :=
  let Id_lo := map (fun x => fsqrt (fabs x)) (column fr tf) in
  lo <~ lift (np_min Id_lo) ;;
  _min_fit (map (fun x => fsub x lo) Id_lo) (f_index fr).

Fixpoint thresh_loop (fr : frame) (pairs : list (string * Q))
         (Vts_ VgVts_ : list float) : M (list float * list float) :=
  match pairs with
  | [] => ret (Vts_, VgVts_)
  | (tf, pk) :: pairs' =>
      fit <~ thresh_curve fr tf ;;
      thresh_loop fr pairs'
        (Vts_ ++ [x_intercept fit])
        (VgVts_ ++ [fabs (fadd (Fin pk) (fdiv (Fin (snd fit)) (Fin (fst fit))))])
  end.

Definition thresh : M unit :=
  fr <~ reads transfers ;;
  pks <~ attr gm_peaks ;;
  r <~ thresh_loop fr (combine (column_names fr) (map fst pks)) [] [] ;;
  writes (set_Vt (np_mean (fst r))) ;;;
  writes (set_Vts (Some (fst r))) ;;;
  writes (set_VgVt (Some (np_mean (snd r)))) ;;;
  writes (set_VgVts (Some (snd r))).

End Pipeline.

(** ** Reference instances of the library calls

    Small exact stand-ins used to run the pipeline on concrete devices. *)

(** Modelled from the spec: [deriv.gm_deriv] is not part of the source tree;
    the spec's [raw] strategy is a direct finite-difference derivative with
    no smoothing.  Central differences inside, one-sided at the two ends (what
    [np.gradient] computes on an evenly spaced axis). *)
Definition fd_gradient (v : list Q) (i : list float) (method : string) (p : fitparams)
  : result (list float) :=
  let n := length v in
  if (n <? 2) || negb (length i =? n) then Raise ValueError
  else
    Ok (map (fun k =>
               let lo := k - 1 in
               let hi := Nat.min (k + 1) (n - 1) in
               fdiv (fsub (nth hi i NaN) (nth lo i NaN))
                    (Fin (nth hi v 0 - nth lo v 0)%Q))
            (seq 0 n)).

(** A square root that is exact on squares of rationals. *)
Definition exact_sqrt (q : Q) : Q :=
  let r := Qred q in
  Qmake (Z.sqrt (Qnum r)) (Pos.sqrt (Qden r)).

(** The grid [start + i * step] below [stop], computed without rounding. *)
Definition exact_arange (start stop step : Q) : list Q :=
  map (fun i => (start + inject_Z (Z.of_nat i) * step)%Q)
      (seq 0 (Z.to_nat (Qceiling ((stop - start) / step)))).

(** The spline stand-in keeps the data; a degree-5 spline needs more than
    five points. *)
Definition data_spline (V : list Q) (I : list float) : result (list Q * list float) :=
  if length V <=? 5 then Raise LibraryError else Ok (V, I).

Definition is_flat (I : list float) : bool :=
  match I with
  | [] => true
  | x :: t => forallb (fun y => match x, y with
                                | Fin a, Fin b => Qeq_bool a b
                                | _, _ => false
                                end) t
  end.

(** A scripted peak search: a flat curve has no curvature peak; any other
    curve gets the peaks [ps] that fall on the resampled grid. *)
Definition scripted_peaks (ps : list nat) (spl : list Q * list float)
           (V_spl : list Q) (widths : list nat) : result (list nat) :=
  if is_flat (snd spl) then Ok []
  else Ok (filter (fun p => p <? length V_spl) ps).

(** Least-squares line through finite data, each parameter then moved into
    its bounds; raises on non-finite data, on a degenerate abscissa and on
    bounds that cannot be met.  It is the constrained optimum whenever the
    unconstrained one lies within the bounds. *)
Definition finite_values (y : list float) : result (list Q) :=
  map_result (fun x => match x with Fin q => Ok q | _ => Raise ValueError end) y.

Definition Qsum (l : list Q) : Q := fold_right Qplus 0%Q l.

Definition clamp (lo hi : float) (q : Q) : Q :=
  match lo, hi with
  | Fin a, _ => if Qltb q a then a else
                  match hi with Fin b => if Qltb b q then b else q | _ => q end
  | _, Fin b => if Qltb b q then b else q
  | _, _ => q
  end.

Definition lsq_line (x : list Q) (y : list float) (b : bounds) : result (Q * Q) :=
  ys <- finite_values y ;;
  if negb (length x =? length ys) then Raise ValueError
  else
    let n := inject_Z (Z.of_nat (length x)) in
    let sx := Qsum x in
    let sy := Qsum ys in
    let sxx := Qsum (map (fun a => a * a)%Q x) in
    let sxy := Qsum (map (fun p => fst p * snd p)%Q (combine x ys)) in
    let det := (n * sxx - sx * sx)%Q in
    if Qeq_bool det 0 then Raise LibraryError
    else
      let f0 := Qred ((n * sxy - sx * sy) / det)%Q in
      let f1 := Qred ((sy - f0 * sx) / n)%Q in
      let p := (clamp (nth 0 (fst b) NInf) (nth 0 (snd b) PInf) f0,
                clamp (nth 1 (fst b) NInf) (nth 1 (snd b) PInf) f1) in
      if in_bounds b p then Ok p else Raise ValueError.


(** *** Concrete devices *)

Definition calc_gms_ref : M unit := calc_gms fd_gradient.

Definition thresh_ref (ps : list nat) : M unit :=
  thresh exact_sqrt data_spline exact_arange (scripted_peaks ps) lsq_line.

Definition _min_fit_ref (ps : list nat) (Id : list float) (V : list Q) : M (Q * Q) :=
  _min_fit data_spline exact_arange (scripted_peaks ps) lsq_line Id V.

Definition with_transfer (d : list (string * series)) (s : OECT) : OECT := set_transfer d s.

(** A one-way sweep from -3 V to -0.6 V whose square-root current is the line
    [-V - 1] down to its zero at -1 V. *)
Definition sweep_axis : list Q := [-3; -2.6; -2.2; -1.8; -1.4; -1; -0.6]%Q.

Definition line_curve : series :=
  combine sweep_axis
          (map Fin [-4; -2.56; -1.44; -0.64; -0.16; 0; 0]%Q).

Definition zero_curve : series :=
  combine sweep_axis (map Fin [0; 0; 0; 0; 0; 0; 0]%Q).

(** A sweep up and back down. *)
Definition round_trip_curve : series :=
  combine [0; 1; 2; 1; 0]%Q (map Fin [0; 1; 4; 2; 1]%Q).

(** A current that falls steeply, then rises a little. *)
Definition dip_curve : series :=
  combine [0; 1; 2; 3]%Q (map Fin [10; 0; 1; 3]%Q).



(** The same sweep with the current on the return leg only. *)
Definition dead_start_curve : series :=
  combine [-3; -2.6; -2.2; -1.8; -1.4; -1; -0.6; -1; -1.4; -1.8; -2.2; -2.6; -3]%Q
          (map Fin [0; 0; 0; 0; 0; 0; 0; 0; -0.16; -0.64; -1.44; -2.56; -4]%Q).

Definition loaded (Reverse : bool) (d : list (string * series)) : result unit * OECT :=
  all_transfers (with_transfer d (init "raw" Reverse)).

Definition gm_computed (Reverse : bool) (d : list (string * series)) : result unit * OECT :=
  calc_gms_ref (final (loaded Reverse d)).

(** ** Vocabulary of the statements *)



(** [s'] has everything [_calc_gm] reads as [s] has it. *)
Definition same_gm_inputs (s s' : OECT) : Prop :=
  rev_point s' = rev_point s /\ reverse s' = reverse s /\
  transfers s' = transfers s /\ opt_gm_method s' = opt_gm_method s.

(** [si] gives a fit what [s] gives it: the same peak record, and the same
    polarity once [quadrant] has run. *)
Definition same_fit_inputs (s si : OECT) : Prop :=
  gm_peaks si = gm_peaks s /\
  quad (final (quadrant si)) = quad (final (quadrant s)).


(** ** Loading: options, file list, transfer keys *)

(** The values held by the parameter and option dictionaries. *)
Inductive pyval : Type :=
| PBool (b : bool)
| PStr (s : string)
| PNum (q : Q).

Definition pydict : Type := list (string * pyval).

Definition dict_get {A : Type} (k : string) (d : list (string * A)) : option A :=
  match find (fun p => String.eqb k (fst p)) d with
  | Some p => Some (snd p)
  | None => None
  end.

(** [any(d)] on a dictionary: one of its keys is a non-empty string. *)
Definition any_key (d : pydict) : bool :=
  existsb (fun p => negb (String.eqb (fst p) "")) d.

(** [for k in src: dst[k] = src[k]] *)
Definition update_from (src dst : pydict) : pydict :=
  fold_left (fun acc k => match dict_get k src with
                          | Some v => dict_set k v acc
                          | None => acc
                          end)
            (map fst src) dst.

(** [if k not in d: d[k] = v] *)
Definition set_default (k : string) (v : pyval) (d : pydict) : pydict :=
  if dict_mem k d then d else dict_set k v d.

(** [set_params(par, opt, params, options)]: the pair
    [(self.params, self.options)] it leaves. *)
Definition set_params (par opt params options : pydict) : pydict * pydict :=
  let params_ := update_from par [] in
  let options_ := update_from opt [] in
  let params_ := if any_key params then update_from params params_ else params_ in
  let options_ := if any_key options then update_from options options_ else options_ in
  let options_ := set_default "gm_method" (PStr "sg") options_ in
  let options_ := set_default "Reverse" (PBool true) options_ in
  let options_ := set_default "Average" (PBool false) options_ in
  let options_ := set_default "V_low" (PBool false) options_ in
  let options_ := set_default "overwrite" (PBool false) options_ in
  (params_, options_).

(** The defaults written by [set_params]. *)
Definition default_option (k : string) : option pyval :=
  if String.eqb k "gm_method" then Some (PStr "sg")
  else if String.eqb k "Reverse" then Some (PBool true)
  else if String.eqb k "Average" then Some (PBool false)
  else if String.eqb k "V_low" then Some (PBool false)
  else if String.eqb k "overwrite" then Some (PBool false)
  else None.

(** *** [filelist] *)

(** [name[-n:] == suffix], for a suffix of [n] characters. *)
Definition ends_with (suffix name : string) : bool :=
  String.eqb
    (substring (String.length name - String.length suffix) (String.length suffix) name)
    suffix.

(** [sub in s] *)
Fixpoint contains (sub s : string) : bool :=
  prefix sub s ||
  match s with
  | EmptyString => false
  | String _ s' => contains sub s'
  end.

(** [l.remove(f)] for an [f] taken from [l]. *)
Fixpoint remove_first (f : string) (l : list string) : list string :=
  match l with
  | [] => []
  | x :: l' => if String.eqb f x then l' else x :: remove_first f l'
  end.

(** [for f in files: if 'config' in f: files.remove(f)].  The loop walks the
    list by position while the list shrinks under it; [i] is the position of
    the iterator.  The position passes the length within [len(files)]
    rounds. *)
Fixpoint prune_config (fuel i : nat) (files : list string) : list string :=
  match fuel with
  | 0 => files
  | S fuel' =>
      match nth_error files i with
      | None => files
      | Some f =>
          if contains "config" f
          then prune_config fuel' (S i) (remove_first f files)
          else prune_config fuel' (S i) files
      end
  end.

Record file_list : Type := {
  fl_files : list string;
  fl_config : option (list string);   (* [None]: what [make_config] returns *)
  fl_make_config : bool
}.

(** [filelist], for the directory listing [names] of [self.folder].
    [os.path.join] is a parameter; the file that [make_config] writes when
    the folder has no [.cfg] is outside the model. *)
Definition filelist (path_join : string -> string -> string)
           (folder : string) (names : list string) : result file_list :=
  let files := map (path_join folder) (filter (ends_with "txt") names) in
  let config := map (path_join folder) (filter (ends_with ".cfg") names) in
  match config with
  | _ :: _ =>
      Ok {| fl_files := prune_config (length files) 0 files;
            fl_config := Some config;
            fl_make_config := false |}
  | [] =>
      _ <- getitem files 0 ;;
      Ok {| fl_files := files; fl_config := None; fl_make_config := true |}
  end.

(** What the loop amounts to on distinct paths: the file that follows a
    removed one is stepped over. *)
Fixpoint skip_prune (files : list string) : list string :=
  match files with
  | [] => []
  | f :: rest =>
      if contains "config" f
      then match rest with
           | [] => []
           | g :: rest' => g :: skip_prune rest'
           end
      else f :: skip_prune rest
  end.

(** *** [transfer_curve]: the key a new curve is stored under *)

Definition last_char (s : string) : result Ascii.ascii :=
  match get (String.length s - 1) s with
  | Some c => Ok c
  | None => Raise IndexError
  end.

(** [int(c)] for a one-character string. *)
Definition int_of_char (c : Ascii.ascii) : result nat :=
  let n := Ascii.nat_of_ascii c in
  if (48 <=? n) && (n <=? 57) then Ok (n - 48) else Raise ValueError.

(** [Vd] is [str(self.Vd)]. *)
Definition transfer_key (Vd : string) (tr : list (string * series)) : result string :=
  if dict_mem (Vd ++ "_0")%string tr then
    c <- getitem (map fst tr) (length tr - 1) ;;
    ch <- last_char c ;;
    n <- int_of_char ch ;;
    Ok (Vd ++ "_" ++ str (n + 1))%string
  else Ok (Vd ++ "_0")%string.

(** [transfer_curve], from the drain voltage label and the rows
    (gate voltage, drain current) read from the file. *)
Definition transfer_curve (Vd : string) (rows : series) : M unit :=
  tr <~ reads transfer ;;
  k <~ lift (transfer_key Vd tr) ;;
  writes (set_transfer (dict_set k rows tr)).

(** The transfer files of a folder, loaded in turn. *)
Fixpoint load_transfers (files : list (string * series)) : M unit :=
  match files with
  | [] => ret tt
  | (Vd, rows) :: files' => transfer_curve Vd rows ;;; load_transfers files'
  end.

(** ** More vocabulary *)

(** Every column has one value per label of the index. *)
Definition rectangular (fr : frame) : Prop :=
  Forall (fun c => length (snd c) = length (f_index fr)) (f_columns fr).

(** A method that keeps an invariant of the object, whether it returns or
    raises. *)
Definition maintains {A : Type} (inv : OECT -> Prop) (m : M A) : Prop :=
  forall s, inv s -> inv (final (m s)).

(** Ascending order, by position. *)
Definition ascending (V : list Q) : Prop :=
  forall i j, i <= j -> j < length V -> (nth i V 0 <= nth j V 0)%Q.

(** The key [Vd_i]. *)
Definition numbered (Vd : string) (i : nat) : string := (Vd ++ "_" ++ str i)%string.

(** The arrays the candidate fits of [_min_fit] are made on, in quadrant
    [q]: flipped when [V[2] < V[1]], and mirrored in quadrant I. *)
Definition fit_arrays (q : quadrant_t) (Id : list float) (V : list Q)
  : list float * list Q :=
  let flipped := Qltb (nth 2 V 0%Q) (nth 1 V 0%Q) in
  let V := if flipped then flip V else V in
  let Id := if flipped then flip Id else Id in
  match q with
  | QI => (flip Id, flip (map Qopp V))
  | QIII => (Id, V)
  end.

(** The sign of the slope as [_min_fit] returns it. *)
Definition returned_fit (q : quadrant_t) (fit : Q * Q) : Q * Q :=
  match q with
  | QI => ((- fst fit)%Q, snd fit)
  | QIII => fit
  end.

(** * Properties *)

Unset Implicit Arguments.

(** ** Sweep splitter *)

Lemma isclose_refl (a : Q) : isclose a a = true.
Proof.
  unfold isclose. apply Qle_bool_iff.
  assert (H : (a - a == 0)%Q) by ring.
  rewrite H. simpl Qabs at 1.
  pose proof (Qabs_nonneg a) as Ha. unfold atol, rtol.
  assert (0 <= (1 # 100000) * Qabs a)%Q by (apply Qmult_le_0_compat; [discriminate | exact Ha]).
  lra.
Qed.

Lemma all2_isclose_refl (x : list Q) : all2 isclose x x = true.
Proof.
  induction x as [|a x IH]; simpl; [reflexivity|].
  now rewrite isclose_refl, IH.
Qed.

Lemma isclose_false_iff (a b : Q) :
  isclose a b = false <-> (atol + rtol * Qabs b < Qabs (a - b))%Q.
Proof.
  unfold isclose. split; intro H.
  - apply Qnot_le_lt. intro Hle. apply Qle_bool_iff in Hle. congruence.
  - destruct (Qle_bool (Qabs (a - b)) (atol + rtol * Qabs b)) eqn:E; [|reflexivity].
    apply Qle_bool_iff in E. lra.
Qed.

(** Moving the first sample further away from the second keeps the pair
    apart: the tolerance only depends on the second sample. *)
Lemma isclose_far_below (a b c : Q) :
  (a < b)%Q -> (b < c)%Q -> isclose b c = false -> isclose a c = false.
Proof.
  intros Hab Hbc H. apply isclose_false_iff in H. apply isclose_false_iff.
  assert (E1 : (Qabs (b - c) == - (b - c))%Q) by (apply Qabs_neg; lra).
  assert (E2 : (Qabs (a - c) == - (a - c))%Q) by (apply Qabs_neg; lra).
  rewrite E2. rewrite E1 in H. lra.
Qed.

Lemma isclose_far_above (a b c : Q) :
  (b < a)%Q -> (c < b)%Q -> isclose b c = false -> isclose a c = false.
Proof.
  intros Hab Hbc H. apply isclose_false_iff in H. apply isclose_false_iff.
  assert (E1 : (Qabs (b - c) == b - c)%Q) by (apply Qabs_pos; lra).
  assert (E2 : (Qabs (a - c) == a - c)%Q) by (apply Qabs_pos; lra).
  rewrite E2. rewrite E1 in H. lra.
Qed.

Section Apart.
Variable R : Q -> Q -> Prop.
Hypothesis R_trans : forall a b c, R a b -> R b c -> R a c.
Hypothesis R_far : forall a b c, R a b -> R b c -> isclose b c = false -> isclose a c = false.

Lemma head_apart (t : list Q) : forall a,
  steps R (a :: t) -> resolved (a :: t) ->
  Forall (fun c => R a c /\ isclose a c = false) t.
Proof.
  induction t as [|b t IH]; intros a HR Hres; [constructor|].
  destruct HR as [Rab HR]. destruct Hres as [Fab Hres].
  constructor; [split; assumption|].
  specialize (IH b HR Hres).
  eapply Forall_impl; [|exact IH].
  intros c [Rbc Fbc]. split; [eapply R_trans; eassumption|].
  eapply R_far; eassumption.
Qed.

Lemma steps_tail (S : Q -> Q -> Prop) (a : Q) (t : list Q) : steps S (a :: t) -> steps S t.
Proof. destruct t; simpl; [trivial | intros [_ H]; exact H]. Qed.

Lemma samples_apart (v : list Q) :
  steps R v -> resolved v ->
  forall i j, i < j -> j < length v -> isclose (nth i v 0%Q) (nth j v 0%Q) = false.
Proof.
  induction v as [|a t IH]; intros HR Hres i j Hij Hj; [simpl in Hj; lia|].
  destruct j as [|j]; [lia|]. simpl in Hj.
  destruct i as [|i].
  - pose proof (head_apart t a HR Hres) as HF.
    rewrite Forall_forall in HF.
    apply (HF (nth j t 0%Q)). apply nth_In. lia.
  - simpl. apply IH; [eapply steps_tail; eassumption | eapply (steps_tail _ a); exact Hres | lia | lia].
Qed.
End Apart.

Lemma monotonic_samples_apart (v : list Q) :
  strictly_monotonic v -> resolved v ->
  forall i j, i < j -> j < length v -> isclose (nth i v 0%Q) (nth j v 0%Q) = false.
Proof.
  intros [H|H] Hres.
  - apply samples_apart with (R := Qlt); auto.
    + intros a b c; apply Qlt_trans.
    + exact isclose_far_below.
  - apply samples_apart with (R := fun a b => (b < a)%Q); auto.
    + intros a b c Hab Hbc. eapply Qlt_trans; eassumption.
    + exact isclose_far_above.
Qed.

Lemma all2_false_head (f : Q -> Q -> bool) (x y : list Q) :
  0 < length x -> 0 < length y -> f (nth 0 x 0%Q) (nth 0 y 0%Q) = false ->
  all2 f x y = false.
Proof.
  destruct x as [|a x]; simpl; [lia|]. destruct y as [|b y]; simpl; [lia|].
  intros _ _ H. now rewrite H.
Qed.

Lemma odd_half (n : nat) : Nat.odd n = true -> n = 2 * (n / 2) + 1.
Proof.
  intro H. apply Nat.odd_spec in H. destruct H as [k Hk]. subst n.
  replace ((2 * k + 1) / 2) with k; [reflexivity|].
  apply Nat.div_unique with (r := 1); lia.
Qed.

Lemma even_half (n : nat) : Nat.odd n = false -> n = 2 * (n / 2).
Proof.
  intro H. rewrite <- Nat.negb_even in H. apply negb_false_iff in H.
  apply Nat.even_spec in H. destruct H as [k Hk]. subst n.
  replace ((2 * k) / 2) with k; [reflexivity|].
  apply Nat.div_unique with (r := 0); lia.
Qed.

(** The two windows compared by [_reverse] always have the same length, so
    [allclose] never fails on their shapes. *)
Lemma windows_same_length (v : list Q) :
  length (if Nat.odd (length v) then slice_to (length v / 2) v
          else slice 1 (length v / 2) v)
  = length (flip (slice_from (midpoint v) v)).
Proof.
  unfold flip, slice_from, slice_to, slice, midpoint.
  rewrite length_rev, length_skipn.
  destruct (Nat.odd (length v)) eqn:E.
  - apply odd_half in E. rewrite length_firstn. lia.
  - apply even_half in E. rewrite length_skipn, length_firstn. lia.
Qed.

Lemma _reverse_total (v : list Q) : exists r, _reverse v = Ok r.
Proof.
  unfold _reverse, allclose. rewrite windows_same_length, Nat.eqb_refl. unfold bind.
  destruct (all2 _ _ _); eauto.
Qed.

(** Without a match the windows were not empty: the sweep has at least
    three samples, and [len(v) - 1] is a valid position. *)
Lemma _reverse_false_length (v : list Q) (mx : nat) :
  _reverse v = Ok (mx, false) -> 3 <= length v /\ mx = length v - 1.
Proof.
  destruct v as [|a [|b [|c t]]]; try (cbn; discriminate).
  unfold _reverse, allclose. rewrite windows_same_length, Nat.eqb_refl. unfold bind.
  destruct (all2 _ _ _); intro H; inversion H. split; [simpl; lia | reflexivity].
Qed.

Lemma symmetric_back_half (w : list Q) (k : nat) :
  symmetric w -> length w = 2 * k + 1 ->
  rev (skipn (k + 1) w) = firstn k w.
Proof.
  intros Hsym Hlen.
  transitivity (rev (skipn (k + 1) (rev w))); [now rewrite Hsym|].
  rewrite skipn_rev, rev_involutive. f_equal. lia.
Qed.

(** C1 (as the code has it).  A sweep of odd length whose second half mirrors
    the first is reported with a reverse leg, and the split index is the
    position of the turning sample, [floor(n/2)] (that is [midpoint - 1]).
    For an even length the first sample is left out of the comparison: the
    sweep is reported with a reverse leg, again at [floor(n/2)], when what
    follows its first sample is such a mirrored sweep. *)
Theorem reverse_symmetric_split (v : list Q) :
  (Nat.odd (length v) = true -> symmetric v ->
   _reverse v = Ok (length v / 2, true)) /\
  (Nat.odd (length v) = false -> symmetric (tl v) ->
   _reverse v = Ok (length v / 2, true)).
Proof.
  split; intros Hpar Hsym.
  - pose proof (odd_half _ Hpar) as Hn.
    unfold _reverse. rewrite Hpar.
    unfold flip, slice_from, slice_to, midpoint.
    rewrite (symmetric_back_half v (length v / 2) Hsym) by lia.
    unfold allclose. rewrite Nat.eqb_refl, all2_isclose_refl. simpl.
    do 2 f_equal. lia.
  - destruct v as [|s w]; [reflexivity|].
    pose proof (even_half _ Hpar) as Hn.
    simpl tl in Hsym.
    unfold _reverse. rewrite Hpar.
    unfold flip, slice_from, slice, midpoint.
    remember (length (s :: w) / 2) as k eqn:Hk.
    simpl length in Hn.
    destruct k as [|k]; [lia|].
    replace (S k + 1) with (S (k + 1)) by lia.
    simpl firstn. simpl skipn.
    rewrite (symmetric_back_half w k Hsym) by lia.
    unfold allclose. rewrite Nat.eqb_refl, all2_isclose_refl. simpl.
    do 2 f_equal. lia.
Qed.

Lemma reverse_symmetric_split_witness :
  _reverse [-1; 0; 1; 0; -1]%Q = Ok (2, true) /\
  _reverse [7; -1; 0; 1; 0; -1]%Q = Ok (3, true).
Proof.
  split.
  - apply (proj1 (reverse_symmetric_split [-1; 0; 1; 0; -1]%Q)); reflexivity.
  - apply (proj2 (reverse_symmetric_split [7; -1; 0; 1; 0; -1]%Q)); reflexivity.
Defined.

(** C1 as stated fails: an even-length sweep followed by its exact mirror
    image is not detected, and for an odd-length mirrored sweep the index
    returned is [floor(n/2)], not [floor(n/2) + 1]. *)
Lemma reverse_symmetric_counterexample :
  let even_sweep := [0; 1; 1; 0]%Q in
  let odd_sweep := [0; 1; 0]%Q in
  (symmetric even_sweep /\ _reverse even_sweep = Ok (3, false)) /\
  (symmetric odd_sweep /\ _reverse odd_sweep = Ok (1, true) /\
   _reverse odd_sweep <> Ok (length odd_sweep / 2 + 1, true)).
Proof.
  cbv zeta. repeat split; try reflexivity. discriminate.
Qed.

(** C4 (as the code has it).  A sweep of fewer than three samples has empty
    comparison windows and is reported with a reverse leg at [floor(n/2)].
    A strictly monotonic sweep of at least three samples whose neighbouring
    samples are further apart than the [allclose] tolerance is reported
    without a reverse leg, at index [n - 1]. *)
Theorem reverse_short_or_monotonic (v : list Q) :
  (length v < 3 -> _reverse v = Ok (length v / 2, true)) /\
  (3 <= length v -> strictly_monotonic v -> resolved v ->
   _reverse v = Ok (length v - 1, false)).
Proof.
  split.
  - intro H. destruct v as [|a [|b [|c t]]]; try reflexivity. simpl in H. lia.
  - intros Hlen Hmono Hres.
    pose proof (monotonic_samples_apart v Hmono Hres) as Hfar.
    unfold _reverse, allclose. rewrite windows_same_length, Nat.eqb_refl. unfold bind.
    pose proof (windows_same_length v) as Hwin.
    rewrite all2_false_head; [reflexivity | | |].
    + destruct (Nat.odd (length v)) eqn:E.
      * apply odd_half in E. unfold slice_to. rewrite length_firstn. lia.
      * apply even_half in E. unfold slice. rewrite length_skipn, length_firstn. lia.
    + unfold flip, slice_from, midpoint. rewrite length_rev, length_skipn.
      destruct (Nat.odd (length v)) eqn:E;
        [apply odd_half in E | apply even_half in E]; lia.
    + unfold flip, slice_from, midpoint.
      assert (Hhalf : length v / 2 + 1 < length v).
      { destruct (Nat.odd (length v)) eqn:E;
          [apply odd_half in E | apply even_half in E]; lia. }
      rewrite rev_nth by (rewrite length_skipn; lia).
      rewrite nth_skipn, length_skipn.
      replace (length v / 2 + 1 + (length v - (length v / 2 + 1) - 1))
        with (length v - 1) by lia.
      destruct (Nat.odd (length v)) eqn:E.
      * apply odd_half in E. unfold slice_to. rewrite nth_firstn.
        replace (0 <? length v / 2) with true by (symmetry; apply Nat.ltb_lt; lia).
        apply Hfar; lia.
      * apply even_half in E. unfold slice. rewrite nth_skipn, nth_firstn.
        replace (1 + 0 <? length v / 2) with true by (symmetry; apply Nat.ltb_lt; lia).
        apply Hfar; lia.
Qed.

Lemma reverse_short_or_monotonic_witness :
  _reverse [-1; 1]%Q = Ok (1, true) /\
  _reverse [-1; -0.8; -0.6; -0.4]%Q = Ok (3, false).
Proof.
  split.
  - apply (proj1 (reverse_short_or_monotonic [-1; 1]%Q)). simpl. lia.
  - apply (proj2 (reverse_short_or_monotonic [-1; -0.8; -0.6; -0.4]%Q)).
    + simpl. lia.
    + left. unfold strictly_increasing. simpl. repeat split; reflexivity.
    + unfold resolved. simpl. repeat split; reflexivity.
Defined.

(** C4 as stated fails: sweeps of length 0, 1 and 2 are all reported with a
    reverse leg, and so is a strictly increasing sweep whose steps are within
    the comparison tolerance. *)
Lemma reverse_short_or_monotonic_counterexample :
  _reverse [] = Ok (0, true) /\
  _reverse [0.5]%Q = Ok (0, true) /\
  _reverse [-1; 1]%Q = Ok (1, true) /\
  (let tiny := [0; 1 # 1000000000; 2 # 1000000000]%Q in
   strictly_increasing tiny /\ _reverse tiny = Ok (1, true)).
Proof.
  cbv zeta. unfold strictly_increasing. simpl steps. repeat split; reflexivity.
Qed.

(** ** Order on doubles *)

Lemma Qltb_lt (a b : Q) : Qltb a b = true <-> (a < b)%Q.
Proof.
  unfold Qltb. rewrite negb_true_iff. split; intro H.
  - apply Qnot_le_lt. intro Hle. apply Qle_bool_iff in Hle. congruence.
  - destruct (Qle_bool b a) eqn:E; [|reflexivity].
    apply Qle_bool_iff in E. lra.
Qed.

Lemma Qltb_ge (a b : Q) : Qltb a b = false <-> (b <= a)%Q.
Proof.
  unfold Qltb. rewrite negb_false_iff. apply Qle_bool_iff.
Qed.

Lemma flt_trans (x y z : float) : flt x y = true -> flt y z = true -> flt x z = true.
Proof.
  destruct x as [a| | |], y as [b| | |], z as [c| | |]; simpl; try congruence.
  rewrite !Qltb_lt. apply Qlt_trans.
Qed.

Lemma flt_nan_r (x : float) : flt x NaN = false.
Proof. destruct x; reflexivity. Qed.

(** ** Quadrant selection *)

Lemma any_negative_spec (l : list Q) :
  any_negative l = true <-> exists v, In v l /\ (v < 0)%Q.
Proof.
  unfold any_negative. rewrite existsb_exists.
  split; intros [v [Hin Hv]]; exists v; (split; [exact Hin|]); now apply Qltb_lt.
Qed.

Lemma any_positive_spec (l : list Q) :
  any_positive l = true <-> exists v, In v l /\ (0 < v)%Q.
Proof.
  unfold any_positive. rewrite existsb_exists.
  split; intros [v [Hin Hv]]; exists v; (split; [exact Hin|]); now apply Qltb_lt.
Qed.



(** ** Methods: inversion of a sequence of steps *)

Lemma bindM_Ok {A B : Type} (m : M A) (k : A -> M B) (s s' : OECT) (b : B) :
  bindM m k s = (Ok b, s') ->
  exists a s1, m s = (Ok a, s1) /\ k a s1 = (Ok b, s').
Proof.
  unfold bindM. destruct (m s) as [[a|e] s1]; intro H; [eauto | discriminate].
Qed.


Lemma bind_Ok {A B : Type} (r : result A) (k : A -> result B) (b : B) :
  bind r k = Ok b -> exists a, r = Ok a /\ k a = Ok b.
Proof. destruct r; simpl; intro H; [eauto | discriminate]. Qed.

Lemma map_result_In {A B : Type} (f : A -> result B) (l : list A) :
  forall out, map_result f l = Ok out ->
  forall b, In b out -> exists a, In a l /\ f a = Ok b.
Proof.
  induction l as [|a l IH]; simpl; intros out H b Hb.
  - inversion H; subst. destruct Hb.
  - apply bind_Ok in H. destruct H as [b0 [Hb0 H]].
    apply bind_Ok in H. destruct H as [bs [Hbs H]].
    inversion H; subst. destruct Hb as [->|Hb].
    + exists a. auto.
    + destruct (IH bs Hbs b Hb) as [a' [Ha' Hf]]. exists a'. auto.
Qed.

Lemma map_result_map {A B : Type} (f : A -> result B) (g : A -> B) (l : list A) :
  (forall a b, f a = Ok b -> b = g a) ->
  forall out, map_result f l = Ok out -> out = map g l.
Proof.
  intro Hfg. induction l as [|a l IH]; simpl; intros out H.
  - now inversion H.
  - apply bind_Ok in H. destruct H as [b0 [Hb0 H]].
    apply bind_Ok in H. destruct H as [bs [Hbs H]].
    inversion H; subst. f_equal; auto.
Qed.

Lemma map_result_length {A B : Type} (f : A -> result B) (l : list A) :
  forall out, map_result f l = Ok out -> length out = length l.
Proof.
  induction l as [|a l IH]; simpl; intros out H.
  - now inversion H.
  - apply bind_Ok in H. destruct H as [b0 [Hb0 H]].
    apply bind_Ok in H. destruct H as [bs [Hbs H]].
    inversion H; subst. simpl. f_equal; auto.
Qed.


Lemma getitem_nth {A : Type} (l : list A) (i : nat) (a d : A) :
  getitem l i = Ok a -> a = nth i l d.
Proof.
  unfold getitem. destruct (nth_error l i) eqn:E; intro H; inversion H; subst.
  symmetry. now apply nth_error_nth.
Qed.

(** ** Inflection finder *)

Lemma map_result_all {A B : Type} (f : A -> result B) (l : list A) :
  forall out, map_result f l = Ok out ->
  forall a, In a l -> exists b, f a = Ok b.
Proof.
  induction l as [|a0 l IH]; simpl; intros out H a Ha; [destruct Ha|].
  apply bind_Ok in H. destruct H as [b0 [Hb0 H]].
  apply bind_Ok in H. destruct H as [bs [Hbs H]].
  destruct Ha as [->|Ha]; [eauto | eapply IH; eassumption].
Qed.

Lemma bisect_bounds (V : list Q) (key : float) (fuel : nat) :
  forall lo hi, lo <= hi -> lo <= bisect fuel lo hi V key <= hi.
Proof.
  induction fuel as [|fuel IH]; intros lo hi Hle; cbn [bisect]; [lia|].
  destruct (lo <? hi) eqn:E; [|lia].
  apply Nat.ltb_lt in E.
  assert (Hm : (hi - lo) / 2 < hi - lo) by (apply Nat.div_lt; lia).
  destruct (key_above (nth (lo + (hi - lo) / 2) V 0%Q) key).
  - specialize (IH (lo + (hi - lo) / 2 + 1) hi). lia.
  - specialize (IH lo (lo + (hi - lo) / 2)). lia.
Qed.

Lemma searchsorted_le (V : list Q) (key : float) : searchsorted V key <= length V.
Proof. unfold searchsorted. apply bisect_bounds. lia. Qed.

(** C6 (as the code has it).  Of the peaks detected in the resampled second
    derivative, [_find_peak] drops exactly those at positions 0 to 5; every
    other peak, whatever its distance to the end of the array, is kept.  A
    kept peak is a position of the resampling grid, and what is returned for
    it is the insertion position ([np.searchsorted]) of the grid voltage
    there in the voltage array: a number from 0 to [len(V)].  This holds
    whatever grid [np.arange] lays out. *)
Theorem find_peak_drops_leading_edge
  (Spline : Type) (UnivariateSpline : list Q -> list float -> result Spline)
  (np_arange : Q -> Q -> Q -> list Q)
  (d2_peaks : Spline -> list Q -> list nat -> result (list nat))
  (I : list float) (V : list Q) (width : nat)
  (spl : Spline) (v_first v_last : Q) (peaks out : list nat) :
  UnivariateSpline V I = Ok spl ->
  getitem V 0 = Ok v_first ->
  getitem V (length V - 1) = Ok v_last ->
  d2_peaks spl (np_arange v_first v_last 0.005%Q) (seq 1 (width - 1)) = Ok peaks ->
  _find_peak UnivariateSpline np_arange d2_peaks I V width = Ok out ->
  (forall p, In p (edge_filter peaks) <-> In p peaks /\ 5 < p) /\
  out = map (fun p => searchsorted V (Fin (nth p (np_arange v_first v_last 0.005%Q) 0%Q)))
            (edge_filter peaks) /\
  (forall p, In p (edge_filter peaks) -> p < length (np_arange v_first v_last 0.005%Q)) /\
  (forall m, In m out -> m <= length V).
Proof.
  intros Hspl Hfirst Hlast Hpk Hout.
  unfold _find_peak in Hout. rewrite Hspl, Hfirst, Hlast in Hout. simpl in Hout.
  rewrite Hpk in Hout. simpl in Hout.
  split; [|split; [|split]].
  - intro p. unfold edge_filter. rewrite filter_In, Nat.ltb_lt. reflexivity.
  - eapply map_result_map; [|exact Hout].
    intros p b Hb. apply bind_Ok in Hb. destruct Hb as [x [Hx Hb]].
    inversion Hb; subst. do 2 f_equal. eapply getitem_nth; eassumption.
  - intros p Hp. destruct (map_result_all _ _ _ Hout p Hp) as [b Hb].
    apply bind_Ok in Hb. destruct Hb as [x [Hx _]].
    unfold getitem in Hx.
    destruct (nth_error (np_arange v_first v_last 0.005%Q) p) eqn:E; [|discriminate].
    apply nth_error_Some. congruence.
  - intros m Hm. destruct (map_result_In _ _ _ Hout m Hm) as [p [_ Hb]].
    apply bind_Ok in Hb. destruct Hb as [x [_ Hb]].
    inversion Hb; subst. apply searchsorted_le.
Qed.

Lemma find_peak_drops_leading_edge_witness :
  let V := [-3; -2.6; -2.2; -1.8; -1.4; -1]%Q in
  let I := map Fin [2000; 1600; 1200; 800; 400; 0]%Q in
  let peaks := [3; 300; 399] in
  let grid := exact_arange (-3) (-1) 0.005 in
  _find_peak data_spline exact_arange (scripted_peaks peaks) I V 15 = Ok [4; 5] /\
  (forall p, In p (edge_filter peaks) <-> In p peaks /\ 5 < p) /\
  [4; 5] = map (fun p => searchsorted V (Fin (nth p grid 0%Q))) (edge_filter peaks) /\
  (forall p, In p (edge_filter peaks) -> p < length grid) /\
  (forall m, In m [4; 5] -> m <= length V).
Proof.
  intros V I peaks grid. split; [vm_compute; reflexivity|].
  apply (find_peak_drops_leading_edge _ data_spline exact_arange (scripted_peaks peaks)
           I V 15 (V, I) (-3)%Q (-1)%Q peaks [4; 5]); vm_compute; reflexivity.
Defined.

(** C6 as stated fails: a peak on the very last sample of the resampled
    array (position 399 of 400) is kept and mapped back. *)
Lemma find_peak_edge_counterexample :
  let V := [-3; -2.6; -2.2; -1.8; -1.4; -1]%Q in
  let I := map Fin [2000; 1600; 1200; 800; 400; 0]%Q in
  let peaks := [3; 300; 399] in
  let grid := exact_arange (-3) (-1) 0.005 in
  length grid = 400 /\
  scripted_peaks peaks (V, I) grid (seq 1 14) = Ok peaks /\
  edge_filter peaks = [300; 399] /\
  _find_peak data_spline exact_arange (scripted_peaks peaks) I V 15 = Ok [4; 5] /\
  ~ (forall p, In p (edge_filter peaks) -> 5 < p /\ p + 5 < length grid).
Proof.
  cbv zeta. repeat split; try (vm_compute; reflexivity).
  intro H. specialize (H 399).
  assert (Hin : In 399 (edge_filter [3; 300; 399])) by (vm_compute; auto).
  destruct (H Hin) as [_ Hend].
  assert (Hlen : length (exact_arange (-3) (-1) 0.005) = 400) by (vm_compute; reflexivity).
  rewrite Hlen in Hend. lia.
Qed.

(** C5 (the code departs from it).  The second search of [_min_fit] is made
    with width 15, the default width of the first: it repeats the first
    search and returns what the first returned. *)
Theorem retry_same_width
  (Spline : Type) (UnivariateSpline : list Q -> list float -> result Spline)
  (np_arange : Q -> Q -> Q -> list Q)
  (d2_peaks : Spline -> list Q -> list nat -> result (list nat))
  (I : list float) (V : list Q) :
  ~ (default_width < retry_width) /\
  _find_peak UnivariateSpline np_arange d2_peaks I V retry_width
  = _find_peak UnivariateSpline np_arange d2_peaks I V default_width.
Proof.
  split; [unfold default_width, retry_width; lia | reflexivity].
Qed.

(** ** Transconductance peaks *)

Lemma arg_scan_spec (l : list float) : forall pre besti best,
  besti < length pre ->
  nth besti pre NaN = best ->
  (forall x, In x pre -> flt best x = false) ->
  let r := arg_scan (fun a b => flt b a) l (length pre) besti best in
  r < length (pre ++ l) /\
  forall x, In x (pre ++ l) -> flt (nth r (pre ++ l) NaN) x = false.
Proof.
  induction l as [|x t IH]; intros pre besti best Hlt Hbest Hdom; simpl.
  - rewrite app_nil_r. split; [exact Hlt|]. rewrite Hbest. exact Hdom.
  - destruct (is_nan best) eqn:Enan.
    + destruct best; try discriminate.
      rewrite length_app. split; [lia|].
      intros y _. rewrite app_nth1, Hbest by exact Hlt. reflexivity.
    + replace (pre ++ x :: t) with ((pre ++ [x]) ++ t) by (rewrite <- app_assoc; reflexivity).
      replace (S (length pre)) with (length (pre ++ [x])) by (rewrite length_app; simpl; lia).
      destruct (is_nan x || flt best x) eqn:Ebet.
      * apply IH.
        -- rewrite length_app. simpl. lia.
        -- rewrite app_nth2, Nat.sub_diag by lia. reflexivity.
        -- intros y Hy. apply in_app_iff in Hy. destruct Hy as [Hy|[<-|[]]].
           ++ apply orb_true_iff in Ebet. destruct Ebet as [Ex|Ex].
              ** destruct x; try discriminate. reflexivity.
              ** destruct (flt x y) eqn:Exy; [|reflexivity].
                 pose proof (flt_trans _ _ _ Ex Exy) as Ht.
                 rewrite (Hdom y Hy) in Ht. discriminate.
           ++ destruct x as [a| | |]; try reflexivity. simpl.
              apply Qltb_ge. apply Qle_refl.
      * apply orb_false_iff in Ebet. destruct Ebet as [_ Ex].
        apply IH.
        -- rewrite length_app. simpl. lia.
        -- rewrite app_nth1 by exact Hlt. exact Hbest.
        -- intros y Hy. apply in_app_iff in Hy. destruct Hy as [Hy|[<-|[]]]; auto.
Qed.

Lemma np_argmax_spec (l : list float) (i : nat) :
  np_argmax l = Ok i ->
  i < length l /\ forall x, In x l -> flt (nth i l NaN) x = false.
Proof.
  destruct l as [|x t]; simpl; intro H; [discriminate|].
  inversion H as [Hi]. clear H.
  apply (arg_scan_spec t [x] 0 x); simpl; [lia | reflexivity |].
  intros y [<-|[]]. destruct x as [a| | |]; try reflexivity.
  simpl. apply Qltb_ge. apply Qle_refl.
Qed.

(** The pair reported for one gm curve is a row of that curve, and no gm
    value of the curve is greater than the one reported. *)
Lemma gm_peak_spec (gm : series) (arg : Q) (pk : float) :
  gm_peak gm = Ok (arg, pk) ->
  In (arg, pk) gm /\ forall v g, In (v, g) gm -> flt pk g = false.
Proof.
  unfold gm_peak, np_max. intro H.
  destruct (np_argmax (map snd gm)) as [i|] eqn:Ei; simpl in H; [|discriminate].
  apply bind_Ok in H. destruct H as [a [Ha H]]. inversion H; subst. clear H.
  destruct (np_argmax_spec _ _ Ei) as [Hi Hmax].
  rewrite length_map in Hi.
  unfold getitem in Ha.
  destruct (nth_error (map fst gm) i) as [a'|] eqn:Ea; inversion Ha; subst. clear Ha.
  rewrite nth_error_map in Ea.
  destruct (nth_error gm i) as [[v0 g0]|] eqn:Eg; simpl in Ea; inversion Ea; subst.
  assert (Hg0 : nth i (map snd gm) NaN = g0).
  { apply nth_error_nth. rewrite nth_error_map, Eg. reflexivity. }
  rewrite Hg0 in *. split.
  - eapply nth_error_In; eassumption.
  - intros v g Hin. apply Hmax. apply in_map_iff. exists (v, g). auto.
Qed.

(** C7 (as the code has it).  Whenever [_calc_gm] returns, the record it
    returns alongside the gm curves holds, for the forward curve (and for the
    backward curve when there is one), a row of that curve: the voltage and
    the gm value of a sample that no other gm value of the curve exceeds.
    The peak is the largest signed value, not the largest magnitude. *)
Theorem calc_gm_reports_signed_maximum
  (gm_deriv : list Q -> list float -> string -> fitparams -> result (list float))
  (s : OECT) (df gf gb pks : series) :
  _calc_gm gm_deriv s df = Ok (gf, gb, pks) ->
  (exists v1 p1, nth_error pks 0 = Some (v1, p1) /\ In (v1, p1) gf /\
                 forall v g, In (v, g) gf -> flt p1 g = false) /\
  (if reverse s
   then length pks = 2 /\
        exists v2 p2, nth_error pks 1 = Some (v2, p2) /\ In (v2, p2) gb /\
                      forall v g, In (v, g) gb -> flt p2 g = false
   else length pks = 1 /\ gb = []).
Proof.
  unfold _calc_gm. intro H.
  apply bind_Ok in H. destruct H as [mx [_ H]].
  apply bind_Ok in H. destruct H as [? [_ H]].
  apply bind_Ok in H. destruct H as [? [_ H]].
  apply bind_Ok in H. destruct H as [fwd [_ H]].
  apply bind_Ok in H. destruct H as [[v1 p1] [Hp1 H]].
  apply gm_peak_spec in Hp1.
  destruct (reverse s).
  - apply bind_Ok in H. destruct H as [bwd [_ H]].
    apply bind_Ok in H. destruct H as [[v2 p2] [Hp2 H]].
    apply gm_peak_spec in Hp2.
    inversion H; subst. split.
    + exists v1, p1. split; [reflexivity | exact Hp1].
    + split; [reflexivity|]. exists v2, p2. split; [reflexivity | exact Hp2].
  - inversion H; subst. split.
    + exists v1, p1. split; [reflexivity | exact Hp1].
    + split; reflexivity.
Qed.

Lemma calc_gm_reports_signed_maximum_witness :
  let s := final (loaded true [("-0.6_0"%string, dip_curve)]) in
  let gf := [(0, Fin (-10)); (1, Fin (-9 # 2)); (2, Fin 1)]%Q in
  let pks := [(2%Q, Fin 1)] in
  (exists v1 p1, nth_error pks 0 = Some (v1, p1) /\ In (v1, p1) gf /\
                 forall v g, In (v, g) gf -> flt p1 g = false) /\
  (if reverse s
   then length pks = 2 /\
        exists v2 p2, nth_error pks 1 = Some (v2, p2) /\ In (v2, p2) [] /\
                      forall v g, In (v, g) (@nil (Q * float)) -> flt p2 g = false
   else length pks = 1 /\ @nil (Q * float) = []).
Proof.
  intros s gf pks.
  apply (calc_gm_reports_signed_maximum fd_gradient s dip_curve gf [] pks).
  vm_compute. reflexivity.
Defined.

(** C7 as stated fails: on a curve whose gm is [-10, -4.5, 1] the peak
    reported is [1] at 2 V, while the value of largest magnitude is [-10]
    at 0 V. *)
Lemma calc_gm_magnitude_counterexample :
  let s := final (loaded true [("-0.6_0"%string, dip_curve)]) in
  let gf := [(0, Fin (-10)); (1, Fin (-9 # 2)); (2, Fin 1)]%Q in
  _calc_gm fd_gradient s dip_curve = Ok (gf, [], [(2%Q, Fin 1)]) /\
  In (0%Q, Fin (-10)) gf /\
  flt (fabs (Fin 1)) (fabs (Fin (-10))) = true.
Proof.
  cbv zeta. split; [vm_compute; reflexivity|]. split; [left; reflexivity | reflexivity].
Qed.

(** C8 (the code departs from it).  [_calc_gm] does not read the [Reverse]
    option, and loading overwrites it with what the splitter detected: a
    device created with [Reverse = False] whose transfer sweep goes up and
    back comes out of [all_transfers] with the option [True], and [calc_gms]
    then produces its backward gm curve. *)
Theorem reverse_option_overwritten
  (gm_deriv : list Q -> list float -> string -> fitparams -> result (list float))
  (b : bool) (s : OECT) (df : series) :
  _calc_gm gm_deriv (set_opt_Reverse b s) df = _calc_gm gm_deriv s df /\
  (let s0 := with_transfer [("-0.6_0"%string, round_trip_curve)] (init "raw" false) in
   let s1 := final (all_transfers s0) in
   let s2 := final (calc_gms_ref s1) in
   opt_Reverse s0 = false /\
   outcome (all_transfers s0) = Ok tt /\ opt_Reverse s1 = true /\ reverse s1 = true /\
   outcome (calc_gms_ref s1) = Ok tt /\
   gm_bwd s2 = [("-0.6_0"%string, [(0, Fin 1); (1, Fin (3 # 2)); (2, Fin 2)]%Q)]).
Proof.
  split; [reflexivity|]. vm_compute. repeat split; reflexivity.
Qed.

(** ** Threshold fitter *)

Lemma lift_Ok {A : Type} (r : result A) (s s1 : OECT) (a : A) :
  lift r s = (Ok a, s1) -> r = Ok a /\ s1 = s.
Proof. unfold lift. intro H. inversion H. auto. Qed.

Lemma attr_Ok {A : Type} (f : OECT -> option A) (s s1 : OECT) (a : A) :
  attr f s = (Ok a, s1) -> f s = Some a /\ s1 = s.
Proof. unfold attr. destruct (f s); intro H; inversion H. auto. Qed.

Lemma reads_Ok {A : Type} (f : OECT -> A) (s s1 : OECT) (a : A) :
  reads f s = (Ok a, s1) -> a = f s /\ s1 = s.
Proof. unfold reads. intro H. inversion H. auto. Qed.









Section Fitter.
Variable Spline : Type.
Variable UnivariateSpline : list Q -> list float -> result Spline.
Variable np_arange : Q -> Q -> Q -> list Q.
Variable d2_peaks : Spline -> list Q -> list nat -> result (list nat).
Variable curve_fit : list Q -> list float -> bounds -> result (Q * Q).





Variable np_sqrt : Q -> Q.



Lemma thresh_loop_length (fr : frame) (pairs : list (string * Q)) :
  forall a1 a2 s l1 l2 s',
    thresh_loop np_sqrt UnivariateSpline np_arange d2_peaks curve_fit fr pairs a1 a2 s = (Ok (l1, l2), s') ->
    length l1 = length a1 + length pairs /\ length l2 = length a2 + length pairs.
Proof.
  induction pairs as [|[tf pk] pairs IH]; intros a1 a2 s l1 l2 s' H; simpl in H.
  - inversion H; subst. simpl. lia.
  - apply bindM_Ok in H. destruct H as (fit & s1 & _ & H).
    apply IH in H. rewrite !length_app in H. simpl in *. lia.
Qed.



Lemma thresh_ok_length (s s' : OECT) (pks : series) :
  gm_peaks s = Some pks ->
  thresh np_sqrt UnivariateSpline np_arange d2_peaks curve_fit s = (Ok tt, s') ->
  exists l lv, Vts s' = Some l /\ VgVts s' = Some lv /\
               length l = Nat.min (num_transfers s) (length pks) /\
               length lv = Nat.min (num_transfers s) (length pks).
Proof.
  intros Hpk E. unfold thresh in E.
  apply bindM_Ok in E. destruct E as (fr & s1 & E1 & E).
  apply reads_Ok in E1. destruct E1 as [-> ->].
  apply bindM_Ok in E. destruct E as (pks' & s2 & E1 & E).
  apply attr_Ok in E1. destruct E1 as [Hpk' ->].
  rewrite Hpk in Hpk'. inversion Hpk'; subst pks'. clear Hpk'.
  apply bindM_Ok in E. destruct E as ([l1 l2] & s3 & E1 & E).
  apply thresh_loop_length in E1.
  unfold bindM, writes in E. inversion E; subst. clear E.
  exists l1, l2. simpl.
  rewrite length_combine in E1. unfold column_names in E1.
  rewrite !length_map in E1. unfold num_transfers. simpl in E1.
  repeat split; lia.
Qed.
End Fitter.






(** ** Threshold extraction over a device *)




(** ** The peak record across curves *)

Section Peaks.
Variable gm_deriv : list Q -> list float -> string -> fitparams -> result (list float).

Lemma same_gm_inputs_refl (s : OECT) : same_gm_inputs s s.
Proof. unfold same_gm_inputs. tauto. Qed.

Lemma same_gm_inputs_trans (s1 s2 s3 : OECT) :
  same_gm_inputs s1 s2 -> same_gm_inputs s2 s3 -> same_gm_inputs s1 s3.
Proof.
  unfold same_gm_inputs. intros (?&?&?&?) (?&?&?&?). repeat split; congruence.
Qed.

Lemma calc_gm_same_inputs (s s1 : OECT) (df : series) :
  same_gm_inputs s s1 -> _calc_gm gm_deriv s1 df = _calc_gm gm_deriv s df.
Proof.
  intros (Hp & Hr & Ht & Hm). unfold _calc_gm. rewrite Hp, Hr, Ht, Hm. reflexivity.
Qed.

Lemma calc_gm_peak_count (s : OECT) (df gf gb pks : series) :
  _calc_gm gm_deriv s df = Ok (gf, gb, pks) ->
  length pks = if reverse s then 2 else 1.
Proof.
  unfold _calc_gm. intro H.
  apply bind_Ok in H. destruct H as [mx [_ H]].
  apply bind_Ok in H. destruct H as [? [_ H]].
  apply bind_Ok in H. destruct H as [? [_ H]].
  apply bind_Ok in H. destruct H as [fwd [_ H]].
  apply bind_Ok in H. destruct H as [p1 [_ H]].
  destruct (reverse s).
  - apply bind_Ok in H. destruct H as [bwd [_ H]].
    apply bind_Ok in H. destruct H as [p2 [_ H]].
    now inversion H.
  - now inversion H.
Qed.

(** One round of the loop of [calc_gms]. *)
Lemma calc_gms_loop_step (i : string) (df : series) (d : list (string * series)) (s : OECT) :
  calc_gms_loop gm_deriv ((i, df) :: d) s =
  match _calc_gm gm_deriv s df with
  | Ok r =>
      calc_gms_loop gm_deriv d
        (set_gm_peaks (Some (snd r))
           (set_gm_bwd (dict_set i (snd (fst r)) (gm_bwd s))
              (set_gm_fwd (dict_set i (fst (fst r)) (gm_fwd s)) s)))
  | Raise e => (Raise e, s)
  end.
Proof.
  simpl. unfold bindM, reads, writes. destruct (_calc_gm gm_deriv s df); reflexivity.
Qed.

Lemma calc_gms_loop_last (k : string) (df : series) (d0 : list (string * series)) :
  forall s s1,
    calc_gms_loop gm_deriv (d0 ++ [(k, df)]) s = (Ok tt, s1) ->
    same_gm_inputs s s1 /\
    exists gf gb pks, _calc_gm gm_deriv s df = Ok (gf, gb, pks) /\ gm_peaks s1 = Some pks.
Proof.
  induction d0 as [|[i0 df0] d0 IH]; intros s s1 H.
  - simpl app in H. rewrite calc_gms_loop_step in H.
    destruct (_calc_gm gm_deriv s df) as [[[gf gb] pks]|] eqn:E; [|discriminate].
    simpl in H. unfold ret in H. inversion H; subst. clear H. split.
    + unfold same_gm_inputs. simpl. tauto.
    + exists gf, gb, pks. split; reflexivity.
  - simpl app in H. rewrite calc_gms_loop_step in H.
    destruct (_calc_gm gm_deriv s df0) as [r|] eqn:E; [|discriminate].
    apply IH in H. destruct H as (Hsame & gf & gb & pks & Hc & Hp).
    assert (Hs : same_gm_inputs s
                   (set_gm_peaks (Some (snd r))
                      (set_gm_bwd (dict_set i0 (snd (fst r)) (gm_bwd s))
                         (set_gm_fwd (dict_set i0 (fst (fst r)) (gm_fwd s)) s))))
      by (unfold same_gm_inputs; simpl; tauto).
    split; [eapply same_gm_inputs_trans; eassumption|].
    exists gf, gb, pks. split; [|exact Hp].
    rewrite <- Hc. symmetry. apply calc_gm_same_inputs. exact Hs.
Qed.

Lemma gather_gms_keeps_peaks (d : list (string * series)) :
  forall labels s,
    gm_peaks (final (gather_gms d labels s)) = gm_peaks s /\
    reverse (final (gather_gms d labels s)) = reverse s.
Proof.
  induction d as [|[g gm] d IH]; intros labels s; [split; reflexivity|].
  simpl. destruct gm as [|row gm]; [apply IH|].
  unfold bindM, reads, lift, writes.
  destruct (frame_set _ _ _) as [fr'|]; [|split; reflexivity].
  match goal with |- context [gather_gms d ?l ?st] => destruct (IH l st) as [E1 E2] end.
  rewrite E1, E2. split; reflexivity.
Qed.

Lemma calc_gms_peaks (s s' : OECT) (d0 : list (string * series)) (k : string) (df : series) :
  transfer s = d0 ++ [(k, df)] ->
  calc_gms gm_deriv s = (Ok tt, s') ->
  exists gf gb pks,
    _calc_gm gm_deriv s df = Ok (gf, gb, pks) /\ gm_peaks s' = Some pks /\
    length pks = if reverse s then 2 else 1.
Proof.
  intros Hd H. unfold calc_gms in H.
  apply bindM_Ok in H. destruct H as (d & s1 & E & H).
  apply reads_Ok in E. destruct E as [-> ->]. rewrite Hd in H.
  apply bindM_Ok in H. destruct H as ([] & s2 & E & H).
  apply calc_gms_loop_last in E. destruct E as (_ & gf & gb & pks & Hc & Hp).
  exists gf, gb, pks. split; [exact Hc|]. split; [|eapply calc_gm_peak_count; eassumption].
  apply bindM_Ok in H. destruct H as (fwd & s3 & E & H).
  apply reads_Ok in E. destruct E as [-> ->].
  apply bindM_Ok in H. destruct H as (labels & s4 & E & H).
  pose proof (proj1 (gather_gms_keeps_peaks (gm_fwd s2) 0 s2)) as K1.
  unfold final in K1. rewrite E in K1. simpl in K1.
  apply bindM_Ok in H. destruct H as (bwd & s5 & E' & H).
  apply reads_Ok in E'. destruct E' as [-> ->].
  apply bindM_Ok in H. destruct H as (labels' & s6 & E' & H).
  pose proof (proj1 (gather_gms_keeps_peaks (gm_bwd s4) labels s4)) as K2.
  unfold final in K2. rewrite E' in K2. simpl in K2.
  apply bindM_Ok in H. destruct H as (pks' & s7 & E'' & H).
  apply attr_Ok in E''. destruct E'' as [_ ->].
  unfold writes in H. inversion H; subst. simpl. congruence.
Qed.
End Peaks.

(** ** Which column meets which peak *)

Lemma pure_lift {A : Type} (r : result A) : exists r', forall s, lift r s = (r', s).
Proof. exists r. reflexivity. Qed.

Lemma pure_ret {A : Type} (a : A) : exists r', forall s, ret a s = (r', s).
Proof. exists (Ok a). reflexivity. Qed.

Lemma pure_raise {A : Type} (e : exn) : exists r', forall s, @raise A e s = (r', s).
Proof. exists (Raise e). reflexivity. Qed.

Lemma pure_bindM {A B : Type} (m : M A) (k : A -> M B) :
  (exists r, forall s, m s = (r, s)) ->
  (forall a, exists r, forall s, k a s = (r, s)) ->
  exists r, forall s, bindM m k s = (r, s).
Proof.
  intros [[a|e] Hm] Hk.
  - destruct (Hk a) as [r Hr]. exists r. intro s. unfold bindM. rewrite Hm. apply Hr.
  - exists (Raise e). intro s. unfold bindM. rewrite Hm. reflexivity.
Qed.

Lemma same_fit_inputs_refl (s : OECT) : same_fit_inputs s s.
Proof. split; reflexivity. Qed.

Lemma quadrant_runs (s : OECT) :
  quadrant s =
  match gm_peaks s with
  | Some pks =>
      match quadrant_choice (map fst pks) with
      | Some q => (Ok tt, set_quad (Some q) s)
      | None => (Ok tt, s)
      end
  | None => (Raise AttributeError, s)
  end.
Proof.
  unfold quadrant, bindM, attr. destruct (gm_peaks s) as [pks|]; [|reflexivity].
  destruct (quadrant_choice (map fst pks)); reflexivity.
Qed.

Lemma quadrant_keeps_peaks (s : OECT) : gm_peaks (final (quadrant s)) = gm_peaks s.
Proof.
  rewrite quadrant_runs. destruct (gm_peaks s) as [pks|] eqn:E; [|exact E].
  destruct (quadrant_choice (map fst pks)); exact E.
Qed.

Lemma quadrant_twice (s : OECT) :
  quad (final (quadrant (final (quadrant s)))) = quad (final (quadrant s)).
Proof.
  rewrite (quadrant_runs (final (quadrant s))), quadrant_keeps_peaks.
  rewrite (quadrant_runs s).
  destruct (gm_peaks s) as [pks|]; [|reflexivity].
  destruct (quadrant_choice (map fst pks)); reflexivity.
Qed.

Lemma same_fit_inputs_quadrant (s si : OECT) :
  same_fit_inputs s si ->
  outcome (quadrant si) = outcome (quadrant s) /\
  same_fit_inputs s (final (quadrant si)).
Proof.
  intros [Hp Hq]. split.
  - rewrite !quadrant_runs, Hp. destruct (gm_peaks s) as [pks|]; [|reflexivity].
    destruct (quadrant_choice (map fst pks)); reflexivity.
  - split.
    + rewrite quadrant_keeps_peaks. exact Hp.
    + rewrite quadrant_twice. exact Hq.
Qed.

(** What follows [quadrant] in a fit reads the polarity only. *)
Lemma after_quadrant {A : Type} (k : quadrant_t -> M A) (s si : OECT) :
  (forall q, exists r, forall st, k q st = (r, st)) ->
  same_fit_inputs s si ->
  outcome (bindM quadrant (fun _ => bindM (attr quad) k) si)
  = outcome (bindM quadrant (fun _ => bindM (attr quad) k) s) /\
  same_fit_inputs s (final (bindM quadrant (fun _ => bindM (attr quad) k) si)).
Proof.
  intros Hk Hs. destruct (same_fit_inputs_quadrant s si Hs) as [Ho Hf].
  destruct Hs as [_ Hq].
  unfold bindM, outcome, final in *.
  destruct (quadrant si) as [[[]|e] si']; destruct (quadrant s) as [[[]|e'] s'];
    simpl in *; try discriminate.
  - unfold attr. rewrite Hq. destruct (quad s') as [q|]; simpl; [|split; [reflexivity | exact Hf]].
    destruct (Hk q) as [r Hr]. rewrite !Hr. simpl. split; [reflexivity | exact Hf].
  - inversion Ho; subst. split; [reflexivity | exact Hf].
Qed.

Section Pairing.
Variable np_sqrt : Q -> Q.
Variable Spline : Type.
Variable UnivariateSpline : list Q -> list float -> result Spline.
Variable np_arange : Q -> Q -> Q -> list Q.
Variable d2_peaks : Spline -> list Q -> list nat -> result (list nat).
Variable curve_fit : list Q -> list float -> bounds -> result (Q * Q).

Lemma min_fit_same_inputs (Id : list float) (V : list Q) (s si : OECT) :
  same_fit_inputs s si ->
  outcome (_min_fit UnivariateSpline np_arange d2_peaks curve_fit Id V si)
  = outcome (_min_fit UnivariateSpline np_arange d2_peaks curve_fit Id V s) /\
  same_fit_inputs s (final (_min_fit UnivariateSpline np_arange d2_peaks curve_fit Id V si)).
Proof.
  intro Hs. unfold _min_fit.
  assert (Hok : forall A B (a : A) (k : A -> M B) st, bindM (lift (Ok a)) k st = k a st)
    by reflexivity.
  assert (Hraise : forall A B (e : exn) (k : A -> M B) st,
             bindM (lift (Raise e)) k st = (Raise e, st)) by reflexivity.
  destruct (getitem V 2) as [v2|e]; [|rewrite !Hraise; split; [reflexivity | exact Hs]].
  rewrite !Hok.
  destruct (getitem V 1) as [v1|e]; [|rewrite !Hraise; split; [reflexivity | exact Hs]].
  rewrite !Hok. cbv zeta.
  apply after_quadrant; [|exact Hs].
  intro q.
  apply pure_bindM; [apply pure_lift | intro mx].
  apply pure_bindM; [destruct mx; [apply pure_lift | apply pure_ret] | intro mx'].
  apply pure_bindM; [apply pure_lift | intro cands].
  destruct cands; [apply pure_raise|].
  apply pure_bindM; [apply pure_lift | intro k].
  apply pure_bindM; [apply pure_lift | intro fit].
  apply pure_ret.
Qed.

Lemma thresh_curve_same_inputs (fr : frame) (tf : string) (s si : OECT) :
  same_fit_inputs s si ->
  outcome (thresh_curve np_sqrt UnivariateSpline np_arange d2_peaks curve_fit fr tf si)
  = outcome (thresh_curve np_sqrt UnivariateSpline np_arange d2_peaks curve_fit fr tf s) /\
  same_fit_inputs s
    (final (thresh_curve np_sqrt UnivariateSpline np_arange d2_peaks curve_fit fr tf si)).
Proof.
  intro Hs. unfold thresh_curve.
  destruct (np_min (map (fun x => fsqrt np_sqrt (fabs x)) (column fr tf))) as [lo|e].
  - apply (min_fit_same_inputs _ (f_index fr) s si Hs).
  - split; [reflexivity | exact Hs].
Qed.

(** The loop of [thresh]: one fit per pair, each the fit [thresh_curve]
    makes of its column on the object as [thresh] found it. *)
Lemma thresh_loop_entries (fr : frame) (s : OECT) (pairs : list (string * Q)) :
  forall a1 a2 si l1 l2 s',
    same_fit_inputs s si ->
    thresh_loop np_sqrt UnivariateSpline np_arange d2_peaks curve_fit fr pairs a1 a2 si
    = (Ok (l1, l2), s') ->
    exists fits,
      Forall2 (fun p fit =>
                 outcome (thresh_curve np_sqrt UnivariateSpline np_arange d2_peaks
                                       curve_fit fr (fst p) s) = Ok fit) pairs fits /\
      l1 = a1 ++ map x_intercept fits /\
      l2 = a2 ++ map (fun pf => fabs (fadd (Fin (snd (fst pf)))
                                          (fdiv (Fin (snd (snd pf))) (Fin (fst (snd pf))))))
                     (combine pairs fits).
Proof.
  induction pairs as [|[tf pk] pairs IH]; intros a1 a2 si l1 l2 s' Hs H; simpl in H.
  - inversion H; subst. exists []. rewrite !app_nil_r. repeat split. constructor.
  - apply bindM_Ok in H. destruct H as (fit & s1 & E & H).
    destruct (thresh_curve_same_inputs fr tf s si Hs) as [Ho Hf].
    unfold outcome, final in Ho, Hf. rewrite E in Ho, Hf. simpl in Ho, Hf.
    destruct (IH _ _ _ _ _ _ Hf H) as (fits & HF & H1 & H2).
    exists (fit :: fits). split; [|split].
    + constructor; [simpl; unfold outcome; congruence | exact HF].
    + rewrite H1, <- app_assoc. reflexivity.
    + rewrite H2, <- app_assoc. reflexivity.
Qed.

Lemma thresh_ok_entries (s s' : OECT) (pks : series) :
  gm_peaks s = Some pks ->
  thresh np_sqrt UnivariateSpline np_arange d2_peaks curve_fit s = (Ok tt, s') ->
  exists fits,
    Forall2 (fun p fit =>
               outcome (thresh_curve np_sqrt UnivariateSpline np_arange d2_peaks
                                     curve_fit (transfers s) (fst p) s) = Ok fit)
            (combine (column_names (transfers s)) (map fst pks)) fits /\
    Vts s' = Some (map x_intercept fits) /\
    VgVts s' = Some (map (fun pf => fabs (fadd (Fin (snd (fst pf)))
                                             (fdiv (Fin (snd (snd pf))) (Fin (fst (snd pf))))))
                         (combine (combine (column_names (transfers s)) (map fst pks)) fits)).
Proof.
  intros Hpk E. unfold thresh in E.
  apply bindM_Ok in E. destruct E as (fr & s1 & E1 & E).
  apply reads_Ok in E1. destruct E1 as [-> ->].
  apply bindM_Ok in E. destruct E as (pks' & s2 & E1 & E).
  apply attr_Ok in E1. destruct E1 as [Hpk' ->].
  rewrite Hpk in Hpk'. inversion Hpk'; subst pks'. clear Hpk'.
  apply bindM_Ok in E. destruct E as ([l1 l2] & s3 & E1 & E).
  apply (thresh_loop_entries (transfers s) s) in E1; [|apply same_fit_inputs_refl].
  destruct E1 as (fits & HF & -> & ->).
  unfold bindM, writes in E. inversion E; subst. clear E.
  exists fits. simpl. repeat split. exact HF.
Qed.
End Pairing.

Lemma combine_fst_firstn {A B : Type} (a : list A) (b : list B) :
  map fst (combine a b) = firstn (length b) a.
Proof.
  revert b. induction a as [|x a IH]; intros [|y b]; simpl; try reflexivity.
  f_equal. apply IH.
Qed.

Lemma combine_snd_firstn {A B : Type} (a : list A) (b : list B) :
  map snd (combine a b) = firstn (length a) b.
Proof.
  revert b. induction a as [|x a IH]; intros [|y b]; simpl; try reflexivity.
  f_equal. apply IH.
Qed.

(** C10 (as the code has it).  After [calc_gms] the peak record is the one
    [_calc_gm] returns for the last transfer curve of the device: one row, or
    two when a reverse leg was detected.  [thresh] pairs the columns of the
    transfer table with the rows of that record by position and stops at the
    shorter of the two.  The pairs are the first columns, in order, each with
    the peak voltage of the row of its position; [Vts] holds, pair by pair,
    the x-intercept of the fit [thresh_curve] makes of the column, and
    [VgVts] the distance of that intercept to the peak voltage of the pair.
    The columns beyond the pairs get no entry. *)
Theorem gm_peaks_of_last_curve
  (gm_deriv : list Q -> list float -> string -> fitparams -> result (list float))
  (np_sqrt : Q -> Q) (Spline : Type)
  (UnivariateSpline : list Q -> list float -> result Spline)
  (np_arange : Q -> Q -> Q -> list Q)
  (d2_peaks : Spline -> list Q -> list nat -> result (list nat))
  (curve_fit : list Q -> list float -> bounds -> result (Q * Q))
  (s s1 s2 : OECT) (d0 : list (string * series)) (k : string) (df : series) :
  transfer s = d0 ++ [(k, df)] ->
  calc_gms gm_deriv s = (Ok tt, s1) ->
  thresh np_sqrt UnivariateSpline np_arange d2_peaks curve_fit s1 = (Ok tt, s2) ->
  exists gf gb pks l lv,
    _calc_gm gm_deriv s df = Ok (gf, gb, pks) /\
    gm_peaks s1 = Some pks /\
    length pks = (if reverse s then 2 else 1) /\
    Vts s2 = Some l /\ VgVts s2 = Some lv /\
    length l = Nat.min (num_transfers s1) (length pks) /\
    length lv = Nat.min (num_transfers s1) (length pks) /\
    exists pairs fits,
      pairs = combine (column_names (transfers s1)) (map fst pks) /\
      map fst pairs = firstn (length pks) (column_names (transfers s1)) /\
      map snd pairs = firstn (num_transfers s1) (map fst pks) /\
      Forall2 (fun p fit =>
                 outcome (thresh_curve np_sqrt UnivariateSpline np_arange d2_peaks
                                       curve_fit (transfers s1) (fst p) s1) = Ok fit)
              pairs fits /\
      l = map x_intercept fits /\
      lv = map (fun pf => fabs (fadd (Fin (snd (fst pf)))
                                     (fdiv (Fin (snd (snd pf))) (Fin (fst (snd pf))))))
               (combine pairs fits).
Proof.
  intros Hd Hc Ht.
  destruct (calc_gms_peaks gm_deriv s s1 d0 k df Hd Hc) as (gf & gb & pks & Hg & Hp & Hlen).
  destruct (thresh_ok_length _ _ _ _ _ _ s1 s2 pks Hp Ht) as (l & lv & Hl & Hlv & H1 & H2).
  destruct (thresh_ok_entries _ _ _ _ _ _ s1 s2 pks Hp Ht) as (fits & HF & Hl' & Hlv').
  exists gf, gb, pks, l, lv. repeat (split; [assumption|]).
  exists (combine (column_names (transfers s1)) (map fst pks)), fits.
  split; [reflexivity|]. split; [|split; [|split; [exact HF|split; congruence]]].
  - rewrite combine_fst_firstn, length_map. reflexivity.
  - rewrite combine_snd_firstn. unfold column_names, num_transfers.
    rewrite length_map. reflexivity.
Qed.

Lemma gm_peaks_of_last_curve_witness :
  let d0 := [("-0.6_0"%string, line_curve)] in
  let s := final (loaded true (d0 ++ [("-0.6_1"%string, zero_curve)])) in
  let s1 := final (calc_gms_ref s) in
  let s2 := final (thresh_ref [3; 300; 399] s1) in
  exists gf gb pks l lv,
    _calc_gm fd_gradient s zero_curve = Ok (gf, gb, pks) /\
    gm_peaks s1 = Some pks /\
    length pks = (if reverse s then 2 else 1) /\
    Vts s2 = Some l /\ VgVts s2 = Some lv /\
    length l = Nat.min (num_transfers s1) (length pks) /\
    length lv = Nat.min (num_transfers s1) (length pks) /\
    exists pairs fits,
      pairs = combine (column_names (transfers s1)) (map fst pks) /\
      map fst pairs = firstn (length pks) (column_names (transfers s1)) /\
      map snd pairs = firstn (num_transfers s1) (map fst pks) /\
      Forall2 (fun p fit =>
                 outcome (thresh_curve exact_sqrt data_spline exact_arange
                                       (scripted_peaks [3; 300; 399]) lsq_line
                                       (transfers s1) (fst p) s1) = Ok fit)
              pairs fits /\
      l = map x_intercept fits /\
      lv = map (fun pf => fabs (fadd (Fin (snd (fst pf)))
                                     (fdiv (Fin (snd (snd pf))) (Fin (fst (snd pf))))))
               (combine pairs fits).
Proof.
  intros d0 s s1 s2.
  apply (gm_peaks_of_last_curve fd_gradient exact_sqrt _ data_spline exact_arange
           (scripted_peaks [3; 300; 399]) lsq_line s s1 s2 d0 "-0.6_1"%string zero_curve);
    vm_compute; reflexivity.
Defined.

(** C10 as stated fails.  A device with two one-way transfer curves has two
    transfer columns and, after [calc_gms], the single peak of its last
    curve.  [thresh] returns with one threshold: only the first column is
    paired with that peak, the second column is paired with nothing. *)
Lemma thresh_pairing_counterexample :
  let s := final (gm_computed true [("-0.6_0"%string, line_curve);
                                    ("-0.6_1"%string, zero_curve)]) in
  let r := thresh_ref [3; 300; 399] s in
  column_names (transfers s) = ["-0.6_0_01"%string; "-0.6_1_01"%string] /\
  gm_peaks s = Some [((-3)%Q, Fin (0 # 4))] /\
  outcome r = Ok tt /\
  Vts (final r) = Some [Fin (-1)] /\
  VgVts (final r) = Some [Fin 2] /\
  option_map (@length _) (Vts (final r)) <> Some (num_transfers s).
Proof.
  cbv zeta. repeat split; try (vm_compute; reflexivity). vm_compute. discriminate.
Qed.

(** The failing input of C5: on a column without current the first search
    finds nothing, the second, identical, finds nothing either, and the fit
    raises. *)
Example zero_curve_has_no_candidate :
  let s := final (gm_computed true [("-0.6_0"%string, zero_curve)]) in
  let V := [-3; -2.6; -2.2; -1.8; -1.4; -1]%Q in
  let Id := map Fin [0; 0; 0; 0; 0; 0]%Q in
  _find_peak data_spline exact_arange (scripted_peaks [3; 300; 399]) Id V default_width = Ok [] /\
  _find_peak data_spline exact_arange (scripted_peaks [3; 300; 399]) Id V retry_width = Ok [] /\
  outcome (_min_fit_ref [3; 300; 399] Id V s) = Raise IndexError.
Proof.
  cbv zeta. repeat split; vm_compute; reflexivity.
Qed.

(** * Further properties *)

(** ** The splitter as a method *)

Lemma reverse_position (v : list Q) :
  v <> [] ->
  exists mx flag rv, _reverse v = Ok (mx, flag) /\ nth_error v mx = Some rv.
Proof.
  intro Hne.
  assert (Hlen : 0 < length v) by (destruct v; [congruence | simpl; lia]).
  unfold _reverse, allclose. rewrite windows_same_length, Nat.eqb_refl. unfold bind.
  assert (Hmid : midpoint v - 1 < length v).
  { unfold midpoint. pose proof (Nat.div_lt (length v) 2 Hlen). lia. }
  destruct (all2 _ _ _).
  - destruct (nth_error v (midpoint v - 1)) as [rv|] eqn:E.
    + exists (midpoint v - 1), true, rv. auto.
    + apply nth_error_None in E. lia.
  - destruct (nth_error v (length v - 1)) as [rv|] eqn:E.
    + exists (length v - 1), false, rv. auto.
    + apply nth_error_None in E. lia.
Qed.

(** X1.  What [_reverse] writes.  With [transfer=True] and a sweep that is
    not empty it returns, having stored the split index, the voltage there,
    and the flag it returns in both [options['Reverse']] and [self.reverse];
    with [transfer=False] it writes nothing; on an empty sweep with
    [transfer=True] it raises [IndexError] after [rev_point] was set to 0. *)
Theorem reverse_self_writes (v : list Q) (s : OECT) :
  (v <> [] ->
   exists mx flag rv,
     _reverse v = Ok (mx, flag) /\ nth_error v mx = Some rv /\
     _reverse_self v true s =
       (Ok (mx, flag),
        set_reverse flag (set_opt_Reverse flag
          (set_rev_v (Some rv) (set_rev_point (Some mx) s))))) /\
  final (_reverse_self v false s) = s /\
  _reverse_self [] true s = (Raise IndexError, set_rev_point (Some 0) s).
Proof.
  split; [|split].
  - intro Hne. destruct (reverse_position v Hne) as (mx & flag & rv & Hr & Hn).
    exists mx, flag, rv. split; [exact Hr|]. split; [exact Hn|].
    unfold _reverse_self, bindM, lift, writes, ret, getitem. rewrite Hr. simpl.
    rewrite Hn. reflexivity.
  - unfold _reverse_self, bindM, lift, final, ret.
    destruct (_reverse v) as [r|e]; reflexivity.
  - reflexivity.
Qed.

Lemma reverse_self_writes_witness :
  let v := [-1; 0; 1; 0; -1]%Q in
  let s := init "sg" false in
  exists mx flag rv,
    _reverse v = Ok (mx, flag) /\ nth_error v mx = Some rv /\
    _reverse_self v true s =
      (Ok (mx, flag),
       set_reverse flag (set_opt_Reverse flag
         (set_rev_v (Some rv) (set_rev_point (Some mx) s)))).
Proof.
  intros v s. apply (proj1 (reverse_self_writes v s)). discriminate.
Defined.

(** ** Loading the transfer table *)

Lemma writes_Ok (f : OECT -> OECT) (s s1 : OECT) (u : unit) :
  writes f s = (Ok u, s1) -> s1 = f s.
Proof. unfold writes. intro H. now inversion H. Qed.

Lemma store_leg_Ok (nm : string) (idx : list Q) (vals : list float) (s s1 : OECT) (u : unit) :
  store_leg nm idx vals s = (Ok u, s1) ->
  exists fr, frame_set (transfers s) nm (sort_index (combine idx vals)) = Ok fr /\
             s1 = set_transfers fr s.
Proof.
  unfold store_leg. intro H.
  apply bindM_Ok in H. destruct H as (fr0 & s2 & E & H).
  apply reads_Ok in E. destruct E as [-> ->].
  apply bindM_Ok in H. destruct H as (fr & s3 & E & H).
  apply lift_Ok in E. destruct E as [E ->].
  apply writes_Ok in H. eauto.
Qed.

(** One round of the loop of [all_transfers] that completes. *)
Lemma all_transfers_round (tf : string) (df : series) (d : list (string * series))
      (s s' : OECT) :
  all_transfers_loop ((tf, df) :: d) s = (Ok tt, s') ->
  exists mx flag rv s1,
    _reverse (map fst df) = Ok (mx, flag) /\
    nth_error (map fst df) mx = Some rv /\
    rev_point s1 = Some mx /\ rev_v s1 = Some rv /\
    reverse s1 = flag /\ opt_Reverse s1 = flag /\
    Vd_labels s1 = Vd_labels s ++ [tf] /\
    num_transfers s <= num_transfers s1 <= num_transfers s + 2 /\
    all_transfers_loop d s1 = (Ok tt, s').
Proof.
  intro H. simpl in H.
  apply bindM_Ok in H. destruct H as (labels & s1 & E & H).
  apply reads_Ok in E. destruct E as [-> ->].
  apply bindM_Ok in H. destruct H as ([] & s2 & E & H).
  apply writes_Ok in E. subst s2.
  apply bindM_Ok in H. destruct H as ([mx flag] & s3 & E & H).
  unfold _reverse_self in E.
  apply bindM_Ok in E. destruct E as ([mx0 flag0] & s4 & E0 & E).
  apply lift_Ok in E0. destruct E0 as [Hr ->]. simpl in E.
  apply bindM_Ok in E. destruct E as ([] & s5 & E0 & E).
  apply writes_Ok in E0. subst s5.
  apply bindM_Ok in E. destruct E as (rv & s6 & E0 & E).
  apply lift_Ok in E0. destruct E0 as [Hrv ->].
  unfold getitem in Hrv.
  destruct (nth_error (map fst df) mx0) as [rv0|] eqn:Hn; inversion Hrv; subst rv0. clear Hrv.
  unfold bindM, writes, ret in E. inversion E; subst. clear E.
  simpl fst in H. simpl snd in H.
  apply bindM_Ok in H. destruct H as ([] & s7 & E1 & H).
  apply store_leg_Ok in E1. destruct E1 as (fr1 & Hf1 & ->).
  apply bindM_Ok in H. destruct H as ([] & s8 & E2 & H).
  assert (Hcols : forall fr nm sr fr', frame_set fr nm sr = Ok fr' ->
                   length (f_columns fr) <= length (f_columns fr') <= length (f_columns fr) + 1).
  { clear. intros fr nm sr fr' Hfs.
    assert (Hd : forall (A : Type) k (a : A) d,
               length d <= length (dict_set k a d) <= length d + 1).
    { intros A k a d. induction d as [|[k' a'] d IH]; simpl; [lia|].
      destruct (String.eqb k k'); simpl; lia. }
    unfold frame_set in Hfs.
    destruct ((length (f_index fr) =? 0) && negb (length sr =? 0)).
    - inversion Hfs; subst. simpl.
      match goal with |- context [dict_set ?k ?a ?d] => pose proof (Hd _ k a d) as Hx end.
      rewrite length_map in Hx. exact Hx.
    - destruct (labels_equal _ _).
      + inversion Hfs; subst. simpl. apply Hd.
      + destruct (labels_unique _); inversion Hfs; subst. simpl. apply Hd. }
  pose proof (Hcols _ _ _ _ Hf1) as Hc1.
  destruct flag.
  - apply store_leg_Ok in E2. destruct E2 as (fr2 & Hf2 & ->).
    pose proof (Hcols _ _ _ _ Hf2) as Hc2. simpl in Hc2.
    exists mx, true, rv. eexists. repeat split; try exact H; try reflexivity; try assumption.
    + unfold num_transfers. simpl. simpl in Hc1. lia.
    + unfold num_transfers. simpl. simpl in Hc1. lia.
  - unfold ret in E2. inversion E2; subst.
    exists mx, false, rv. eexists. repeat split; try exact H; try reflexivity; try assumption.
    + unfold num_transfers. simpl. simpl in Hc1. lia.
    + unfold num_transfers. simpl. simpl in Hc1. lia.
Qed.

Lemma all_transfers_loop_last (k : string) (df : series) (d0 : list (string * series)) :
  forall s s',
    all_transfers_loop (d0 ++ [(k, df)]) s = (Ok tt, s') ->
    exists mx flag rv,
      _reverse (map fst df) = Ok (mx, flag) /\
      nth_error (map fst df) mx = Some rv /\
      rev_point s' = Some mx /\ rev_v s' = Some rv /\
      reverse s' = flag /\ opt_Reverse s' = flag.
Proof.
  induction d0 as [|[k0 df0] d0 IH]; intros s s' H.
  - simpl app in H. apply all_transfers_round in H.
    destruct H as (mx & flag & rv & s1 & Hr & Hn & H1 & H2 & H3 & H4 & _ & _ & Hend).
    simpl in Hend. unfold ret in Hend.
    assert (Hs : s1 = s') by (now inversion Hend). subst s1.
    exists mx, flag, rv. auto 10.
  - simpl app in H. apply all_transfers_round in H.
    destruct H as (_ & _ & _ & s1 & _ & _ & _ & _ & _ & _ & _ & _ & Hend).
    eapply IH. exact Hend.
Qed.

(** X2.  When [all_transfers] returns, the split index, the reversal
    voltage and the two reverse flags on the object are those of the last
    transfer curve of the dictionary, whatever the earlier curves gave. *)
Theorem all_transfers_keeps_last_split
  (s s' : OECT) (d0 : list (string * series)) (k : string) (df : series) :
  transfer s = d0 ++ [(k, df)] ->
  all_transfers s = (Ok tt, s') ->
  exists mx flag rv,
    _reverse (map fst df) = Ok (mx, flag) /\
    nth_error (map fst df) mx = Some rv /\
    rev_point s' = Some mx /\ rev_v s' = Some rv /\
    reverse s' = flag /\ opt_Reverse s' = flag.
Proof.
  intros Hd H. unfold all_transfers in H.
  apply bindM_Ok in H. destruct H as (d & s1 & E & H).
  apply reads_Ok in E. destruct E as [-> ->]. rewrite Hd in H.
  eapply all_transfers_loop_last. exact H.
Qed.

Lemma all_transfers_keeps_last_split_witness :
  let d0 := [("-0.6_0"%string, round_trip_curve)] in
  let s := with_transfer (d0 ++ [("-0.6_1"%string, line_curve)]) (init "raw" true) in
  exists mx flag rv,
    _reverse (map fst line_curve) = Ok (mx, flag) /\
    nth_error (map fst line_curve) mx = Some rv /\
    rev_point (final (all_transfers s)) = Some mx /\
    rev_v (final (all_transfers s)) = Some rv /\
    reverse (final (all_transfers s)) = flag /\
    opt_Reverse (final (all_transfers s)) = flag.
Proof.
  intros d0 s.
  apply (all_transfers_keeps_last_split s (final (all_transfers s)) d0
           "-0.6_1"%string line_curve); vm_compute; reflexivity.
Defined.

(** X3.  The loop of [all_transfers] over the transfer dictionary: when it
    completes it has appended the keys of the dictionary, in order, to
    [Vd_labels], and each curve has added at most two columns to the
    transfer table and removed none. *)
Theorem all_transfers_counts (d : list (string * series)) :
  forall s s',
    all_transfers_loop d s = (Ok tt, s') ->
    Vd_labels s' = Vd_labels s ++ map fst d /\
    num_transfers s <= num_transfers s' <= num_transfers s + 2 * length d.
Proof.
  induction d as [|[tf df] d IH]; intros s s' H.
  - simpl in H. unfold ret in H. inversion H; subst. simpl.
    split; [symmetry; apply app_nil_r | lia].
  - apply all_transfers_round in H.
    destruct H as (_ & _ & _ & s1 & _ & _ & _ & _ & _ & _ & Hl & Hn & Hend).
    apply IH in Hend. destruct Hend as [Hl' Hn'].
    rewrite Hl', Hl, <- app_assoc. simpl. split; [reflexivity | lia].
Qed.

Lemma all_transfers_counts_witness :
  let d := [("-0.6_0"%string, round_trip_curve); ("-0.6_1"%string, line_curve)] in
  let s := init "raw" true in
  let s' := final (all_transfers_loop d s) in
  all_transfers_loop d s = (Ok tt, s') /\
  Vd_labels s' = Vd_labels s ++ map fst d /\
  num_transfers s <= num_transfers s' <= num_transfers s + 2 * length d.
Proof.
  intros d s s'.
  assert (H : all_transfers_loop d s = (Ok tt, s')) by (vm_compute; reflexivity).
  split; [exact H | apply (all_transfers_counts d s s' H)].
Defined.

Lemma dict_set_Forall {A : Type} (P : string * A -> Prop) (k : string) (a : A)
      (d : list (string * A)) :
  P (k, a) -> Forall P d -> Forall P (dict_set k a d).
Proof.
  intros Hka Hd. induction Hd as [|[k' a'] d Hx Hd IH]; simpl.
  - constructor; [exact Hka | constructor].
  - destruct (String.eqb k k'); constructor; auto.
Qed.

Lemma labels_equal_length (a b : list Q) : labels_equal a b = true -> length a = length b.
Proof.
  revert b. induction a as [|x a IH]; intros [|y b]; simpl; try discriminate; [reflexivity|].
  intro H. apply andb_true_iff in H. destruct H as [_ H]. f_equal. now apply IH.
Qed.

Lemma frame_set_rectangular (fr fr' : frame) (nm : string) (sr : series) :
  rectangular fr -> frame_set fr nm sr = Ok fr' -> rectangular fr'.
Proof.
  unfold rectangular, frame_set. intros Hwf H.
  destruct ((length (f_index fr) =? 0) && negb (length sr =? 0)).
  - inversion H; subst. simpl. apply dict_set_Forall.
    + simpl. now rewrite !length_map.
    + apply Forall_forall. intros c Hc. apply in_map_iff in Hc.
      destruct Hc as [c0 [<- _]]. simpl. apply repeat_length.
  - destruct (labels_equal (map fst sr) (f_index fr)) eqn:El.
    + inversion H; subst. simpl. apply dict_set_Forall; [|exact Hwf].
      simpl. apply labels_equal_length in El. now rewrite !length_map in *.
    + destruct (labels_unique (map fst sr)); inversion H; subst. simpl.
      apply dict_set_Forall; [|exact Hwf]. simpl. apply length_map.
Qed.

Section Invariant.
Variable inv : OECT -> Prop.

Lemma maintains_bindM {A B : Type} (m : M A) (k : A -> M B) :
  maintains inv m -> (forall a, maintains inv (k a)) -> maintains inv (bindM m k).
Proof.
  intros Hm Hk s Hs. specialize (Hm s Hs). unfold final, bindM in *.
  destruct (m s) as [[a|e] s1]; simpl in *; [|exact Hm]. now apply Hk.
Qed.

Lemma maintains_lift {A : Type} (r : result A) : maintains inv (lift r).
Proof. intros s Hs. exact Hs. Qed.

Lemma maintains_ret {A : Type} (a : A) : maintains inv (ret a).
Proof. intros s Hs. exact Hs. Qed.

Lemma maintains_reads {A : Type} (f : OECT -> A) : maintains inv (reads f).
Proof. intros s Hs. exact Hs. Qed.

Lemma maintains_writes (f : OECT -> OECT) :
  (forall s, inv s -> inv (f s)) -> maintains inv (writes f).
Proof. intros Hf s Hs. now apply Hf. Qed.
End Invariant.

Lemma store_leg_rectangular (nm : string) (idx : list Q) (vals : list float) :
  maintains (fun s => rectangular (transfers s)) (store_leg nm idx vals).
Proof.
  intros s Hs. unfold store_leg, final, bindM, reads, lift, writes.
  destruct (frame_set (transfers s) nm (sort_index (combine idx vals))) as [fr|] eqn:E;
    simpl; [|exact Hs].
  eapply frame_set_rectangular; eassumption.
Qed.

Lemma reverse_self_keeps_transfers (v : list Q) (t : bool) (s : OECT) :
  transfers (final (_reverse_self v t s)) = transfers s.
Proof.
  unfold _reverse_self, final, bindM, lift, writes, ret.
  destruct (_reverse v) as [[mx flag]|e]; simpl; [|reflexivity].
  destruct t; [|reflexivity].
  destruct (getitem v mx); reflexivity.
Qed.

Lemma all_transfers_loop_rectangular (d : list (string * series)) :
  maintains (fun s => rectangular (transfers s)) (all_transfers_loop d).
Proof.
  induction d as [|[tf df] d IH]; simpl; [apply maintains_ret|].
  apply maintains_bindM; [apply maintains_reads | intro labels].
  apply maintains_bindM; [apply maintains_writes; auto | intros _].
  apply maintains_bindM.
  { intros s Hs. now rewrite reverse_self_keeps_transfers. }
  intro r.
  apply maintains_bindM; [apply store_leg_rectangular | intros _].
  apply maintains_bindM; [|intros _; exact IH].
  destruct (snd r); [apply store_leg_rectangular | apply maintains_ret].
Qed.

(** X4.  [all_transfers] keeps the transfer table rectangular: if every
    column had one value per index label before, every column has one value
    per index label after, whether the call returns or raises. *)
Theorem all_transfers_rectangular (s : OECT) :
  rectangular (transfers s) -> rectangular (transfers (final (all_transfers s))).
Proof.
  revert s. change (maintains (fun s => rectangular (transfers s)) all_transfers).
  unfold all_transfers.
  apply maintains_bindM; [apply maintains_reads | intro d].
  apply all_transfers_loop_rectangular.
Qed.

Lemma all_transfers_rectangular_witness :
  rectangular (transfers (final (loaded true [("-0.6_0"%string, round_trip_curve);
                                               ("-0.6_1"%string, line_curve)]))).
Proof.
  apply (all_transfers_rectangular
           (with_transfer [("-0.6_0"%string, round_trip_curve);
                           ("-0.6_1"%string, line_curve)] (init "raw" true))).
  constructor.
Defined.

(** ** Bisection *)

Section Bisect.
Variable V : list Q.
Variable key : float.

(** Along [V], once a sample is not below the key no later one is. *)
Hypothesis above_closed :
  forall i j, i <= j -> j < length V ->
              key_above (nth j V 0%Q) key = true -> key_above (nth i V 0%Q) key = true.

Lemma half_lt (lo hi : nat) : lo < hi -> lo <= lo + (hi - lo) / 2 < hi.
Proof.
  intro H. assert (0 < hi - lo) by lia.
  pose proof (Nat.div_lt (hi - lo) 2). lia.
Qed.

Lemma bisect_spec (fuel : nat) : forall lo hi,
  lo <= hi -> hi <= length V -> hi - lo <= fuel ->
  (forall i, i < lo -> key_above (nth i V 0%Q) key = true) ->
  (forall i, hi <= i -> i < length V -> key_above (nth i V 0%Q) key = false) ->
  let r := bisect fuel lo hi V key in
  lo <= r <= hi /\
  (forall i, i < r -> key_above (nth i V 0%Q) key = true) /\
  (forall i, r <= i -> i < length V -> key_above (nth i V 0%Q) key = false).
Proof.
  induction fuel as [|fuel IH]; intros lo hi Hle Hhi Hfuel Hlo Hup; cbn [bisect].
  - assert (lo = hi) by lia. subst. repeat split; auto.
  - destruct (lo <? hi) eqn:E.
    + apply Nat.ltb_lt in E. pose proof (half_lt lo hi E) as Hmid.
      destruct (key_above (nth (lo + (hi - lo) / 2) V 0%Q) key) eqn:Ek.
      * destruct (IH (lo + (hi - lo) / 2 + 1) hi) as (Hr & Hb & Ha); try lia; auto.
        { intros i Hi. apply above_closed with (j := lo + (hi - lo) / 2); [lia | lia | exact Ek]. }
        repeat split; auto; lia.
      * destruct (IH lo (lo + (hi - lo) / 2)) as (Hr & Hb & Ha); try lia; auto.
        { intros i Hi Hn.
          destruct (key_above (nth i V 0%Q) key) eqn:Ei; [|reflexivity].
          rewrite (above_closed (lo + (hi - lo) / 2) i Hi Hn Ei) in Ek. discriminate. }
        repeat split; auto; lia.
    + apply Nat.ltb_ge in E. assert (lo = hi) by lia. subst. repeat split; auto.
Qed.

Lemma searchsorted_spec :
  let r := searchsorted V key in
  r <= length V /\
  (forall i, i < r -> key_above (nth i V 0%Q) key = true) /\
  (forall i, r <= i -> i < length V -> key_above (nth i V 0%Q) key = false).
Proof.
  unfold searchsorted.
  destruct (bisect_spec (length V) 0 (length V)) as (Hr & Hb & Ha);
    [lia | lia | lia | intros i Hi; lia | intros i Hi Hn; lia |].
  repeat split; auto; lia.
Qed.
End Bisect.

Lemma ascending_above_closed (V : list Q) (key : float) :
  ascending V ->
  forall i j, i <= j -> j < length V ->
              key_above (nth j V 0%Q) key = true -> key_above (nth i V 0%Q) key = true.
Proof.
  intros Hasc i j Hij Hj. specialize (Hasc i j Hij Hj).
  unfold key_above. destruct key as [k| | |]; simpl; auto.
  rewrite !Qltb_lt. intro H. lra.
Qed.

Lemma steps_le_head (t : list Q) : forall a,
  steps Qle (a :: t) -> Forall (fun c => (a <= c)%Q) t.
Proof.
  induction t as [|b t IH]; intros a H; [constructor|].
  destruct H as [Hab H]. constructor; [exact Hab|].
  eapply Forall_impl; [|apply IH; exact H].
  intros c Hc. simpl in Hc. lra.
Qed.

(** Neighbours in order give an ascending array. *)
Lemma steps_ascending (V : list Q) : steps Qle V -> ascending V.
Proof.
  induction V as [|a t IH]; intros H i j Hij Hj; [simpl in Hj; lia|].
  destruct j as [|j].
  - assert (i = 0) by lia. subst. simpl. apply Qle_refl.
  - simpl in Hj. destruct i as [|i].
    + pose proof (steps_le_head t a H) as HF. rewrite Forall_forall in HF.
      simpl. apply HF. apply nth_In. lia.
    + simpl. apply IH; [|lia|lia]. destruct t; simpl in *; tauto.
Qed.

(** [searchsorted] on an ascending array splits it at the position it
    returns: every sample before it is below the key, every sample from it on
    is at least the key. *)
Lemma searchsorted_splits_ascending (V : list Q) (x : Q) :
  ascending V ->
  let r := searchsorted V (Fin x) in
  r <= length V /\
  (forall i, i < r -> (nth i V 0 < x)%Q) /\
  (forall i, r <= i -> i < length V -> (x <= nth i V 0)%Q).
Proof.
  intros Hasc r.
  destruct (searchsorted_spec V (Fin x) (ascending_above_closed V (Fin x) Hasc))
    as (Hr & Hb & Ha).
  fold r in Hr, Hb, Ha. split; [exact Hr|]. split.
  - intros i Hi. specialize (Hb i Hi). unfold key_above in Hb. simpl in Hb.
    now apply Qltb_lt.
  - intros i Hi Hn. specialize (Ha i Hi Hn). unfold key_above in Ha. simpl in Ha.
    now apply Qltb_ge.
Qed.

(** For a key that is [nan] or [+inf], [searchsorted] returns the
    length of the array, and for [-inf] it returns 0, whatever the order of
    the array. *)
Lemma searchsorted_special_keys (V : list Q) :
  searchsorted V NaN = length V /\
  searchsorted V PInf = length V /\
  searchsorted V NInf = 0.
Proof.
  assert (Hconst : forall key b, (forall a, key_above a key = b) ->
                                 searchsorted V key = if b then length V else 0).
  { intros key b Hb.
    destruct (searchsorted_spec V key) as (Hr & Hbelow & Habove).
    { intros i j _ _ H. rewrite Hb in *. exact H. }
    destruct b.
    - destruct (Nat.eq_dec (searchsorted V key) (length V)) as [E|E]; [exact E|].
      specialize (Habove (searchsorted V key) (Nat.le_refl _)).
      rewrite Hb in Habove. assert (searchsorted V key < length V) by lia.
      specialize (Habove H). discriminate.
    - destruct (searchsorted V key) as [|r] eqn:E; [reflexivity|].
      specialize (Hbelow 0). rewrite Hb in Hbelow.
      assert (0 < S r) by lia. specialize (Hbelow H). discriminate. }
  split; [|split].
  - apply (Hconst NaN true). reflexivity.
  - apply (Hconst PInf true). reflexivity.
  - apply (Hconst NInf false). reflexivity.
Qed.

(** ** The resampling grid *)

Lemma nth_map_seq {A : Type} (f : nat -> A) (d : A) (n : nat) :
  forall a i, i < n -> nth i (map f (seq a n)) d = f (a + i).
Proof.
  induction n as [|n IH]; intros a i Hi; [lia|].
  destruct i as [|i]; simpl.
  - f_equal. lia.
  - rewrite IH by lia. f_equal. lia.
Qed.

Lemma exact_arange_nth (start stop step : Q) (i : nat) :
  i < length (exact_arange start stop step) ->
  nth i (exact_arange start stop step) 0%Q = (start + inject_Z (Z.of_nat i) * step)%Q.
Proof.
  unfold exact_arange. rewrite length_map, length_seq. intro Hi.
  now rewrite nth_map_seq by exact Hi.
Qed.

(** ** Candidates and their residuals *)

(** X5.  On an ascending voltage array, when the samples of the resampling
    grid at positions greater than 5 lie above [V[0]] (what [np.arange]
    gives from [V[0]] with the step 0.005, unless the step is lost in
    rounding), every candidate returned by [_find_peak] is a number from 1
    to [len(V)]: the window [V[:m]] handed to the fit is never empty.  The
    value [len(V)] is not excluded. *)
Theorem find_peak_candidates_inside
  (Spline : Type) (UnivariateSpline : list Q -> list float -> result Spline)
  (np_arange : Q -> Q -> Q -> list Q)
  (d2_peaks : Spline -> list Q -> list nat -> result (list nat))
  (I : list float) (V : list Q) (width : nat) (out : list nat) :
  ascending V ->
  (forall p, 5 < p ->
             p < length (np_arange (nth 0 V 0%Q) (nth (length V - 1) V 0%Q) 0.005%Q) ->
             (nth 0 V 0 < nth p (np_arange (nth 0 V 0%Q) (nth (length V - 1) V 0%Q) 0.005%Q) 0)%Q) ->
  _find_peak UnivariateSpline np_arange d2_peaks I V width = Ok out ->
  forall m, In m out -> 1 <= m <= length V.
Proof.
  intros Hasc Hgrid H m Hm. unfold _find_peak in H.
  apply bind_Ok in H. destruct H as [spl [_ H]].
  apply bind_Ok in H. destruct H as [v_first [Hfirst H]].
  apply bind_Ok in H. destruct H as [v_last [Hlast H]].
  apply bind_Ok in H. destruct H as [peaks [_ H]].
  destruct (map_result_In _ _ _ H m Hm) as [p [Hp Hmp]].
  apply bind_Ok in Hmp. destruct Hmp as [x [Hx Hmp]]. inversion Hmp as [Hr]. clear Hmp.
  unfold edge_filter in Hp. apply filter_In in Hp. destruct Hp as [_ Hp5].
  apply Nat.ltb_lt in Hp5.
  assert (Hlen : 0 < length V).
  { destruct V; [discriminate | simpl; lia]. }
  rewrite (getitem_nth V 0 v_first 0%Q Hfirst) in *.
  rewrite (getitem_nth V (length V - 1) v_last 0%Q Hlast) in *.
  assert (Hpg : p < length (np_arange (nth 0 V 0%Q) (nth (length V - 1) V 0%Q) 0.005%Q)).
  { unfold getitem in Hx.
    destruct (nth_error (np_arange (nth 0 V 0%Q) (nth (length V - 1) V 0%Q) 0.005%Q) p) eqn:E;
      [|discriminate].
    apply nth_error_Some. congruence. }
  pose proof (Hgrid p Hp5 Hpg) as Hx1.
  rewrite <- (getitem_nth _ p x 0%Q Hx) in Hx1.
  split; [|apply searchsorted_le].
  destruct (searchsorted_spec V (Fin x) (ascending_above_closed V (Fin x) Hasc))
    as (_ & _ & Habove).
  destruct (searchsorted V (Fin x)) as [|r] eqn:Er; [|lia].
  specialize (Habove 0 (Nat.le_refl 0) Hlen).
  unfold key_above in Habove. simpl in Habove. apply Qltb_ge in Habove. lra.
Qed.

Lemma find_peak_candidates_inside_witness :
  let V := [-3; -2.6; -2.2; -1.8; -1.4; -1]%Q in
  let I := map Fin [2000; 1600; 1200; 800; 400; 0]%Q in
  _find_peak data_spline exact_arange (scripted_peaks [3; 300; 399]) I V 15 = Ok [4; 5] /\
  (forall m, In m [4; 5] -> 1 <= m <= length V).
Proof.
  intros V I. split; [vm_compute; reflexivity|].
  apply (find_peak_candidates_inside _ data_spline exact_arange (scripted_peaks [3; 300; 399]) I V 15).
  - apply steps_ascending. simpl. repeat split; lra.
  - intros p Hp5 Hp. rewrite exact_arange_nth by exact Hp.
    assert (H0 : (0 < inject_Z (Z.of_nat p))%Q).
    { change 0%Q with (inject_Z 0). rewrite <- Zlt_Qlt. lia. }
    simpl nth. assert (0 < inject_Z (Z.of_nat p) * 0.005)%Q; [|lra].
    apply Qmult_lt_0_compat; [exact H0 | reflexivity].
  - vm_compute. reflexivity.
Defined.

Lemma fit_candidate_no_window
  (curve_fit : list Q -> list float -> bounds -> result (Q * Q))
  (Id : list float) (V : list Q) (m : nat) (fit : Q * Q) :
  curve_fit (slice_to m V) (slice_to m Id) fit_bounds = Ok fit ->
  searchsorted V (x_intercept fit) = 0 ->
  fit_candidate curve_fit Id V m = Ok (fit, Fin 0).
Proof.
  intros Hfit Hs. unfold fit_candidate. rewrite Hfit. simpl. rewrite Hs. reflexivity.
Qed.

(** X6.  The residual of a candidate is summed over the samples before
    the fitted intercept only.  A fit whose slope is zero with a positive
    intercept, and on an ascending array a fit whose intercept is not beyond
    the first sample, therefore gets the residual 0. *)
Theorem fit_candidate_zero_residual
  (curve_fit : list Q -> list float -> bounds -> result (Q * Q))
  (Id : list float) (V : list Q) (m : nat) (fit : Q * Q) :
  curve_fit (slice_to m V) (slice_to m Id) fit_bounds = Ok fit ->
  (fst fit == 0 /\ 0 < snd fit)%Q \/
  (ascending V /\ exists x, x_intercept fit = Fin x /\ (x <= nth 0 V 0)%Q) ->
  fit_candidate curve_fit Id V m = Ok (fit, Fin 0).
Proof.
  intros Hfit Hcase. apply fit_candidate_no_window; [exact Hfit|].
  destruct Hcase as [[H0 Hpos] | [Hasc [x [Hx Hle]]]].
  - assert (Hxi : x_intercept fit = NInf).
    { destruct fit as [f0 f1]. unfold x_intercept, fdiv, fneg. simpl in *.
      rewrite (Qeq_eq_bool _ _ H0). simpl.
      unfold Qlt in Hpos. simpl in Hpos.
      destruct (Qnum f1) as [|n|n] eqn:En; simpl; try reflexivity; lia. }
    rewrite Hxi. apply (searchsorted_special_keys V).
  - rewrite Hx.
    destruct (searchsorted_spec V (Fin x) (ascending_above_closed V (Fin x) Hasc))
      as (_ & Hbelow & _).
    destruct (searchsorted V (Fin x)) as [|r]; [reflexivity|].
    assert (H0 : 0 < S r) by lia. specialize (Hbelow 0 H0).
    unfold key_above in Hbelow. simpl in Hbelow. apply Qltb_lt in Hbelow. lra.
Qed.

Lemma fit_candidate_zero_residual_witness :
  let V := [-3; -2.6; -2.2; -1.8; -1.4; -1]%Q in
  let Id := map Fin [1; 1; 1; 1; 1; 1]%Q in
  fit_candidate lsq_line Id V 4 = Ok ((0, 1)%Q, Fin 0).
Proof.
  intros V Id.
  apply (fit_candidate_zero_residual lsq_line Id V 4 (0, 1)%Q).
  - vm_compute. reflexivity.
  - left. split; reflexivity.
Defined.

(** ** [_min_fit]: what it needs, what it returns *)

Lemma np_argmin_spec (l : list float) (i : nat) :
  np_argmin l = Ok i ->
  i < length l /\ forall x, In x l -> flt x (nth i l NaN) = false.
Proof.
  destruct l as [|x0 t]; simpl; intro H; [discriminate|].
  inversion H as [Hi]. clear H Hi.
  assert (Hgen : forall (l pre : list float) besti best,
             besti < length pre -> nth besti pre NaN = best ->
             (forall x, In x pre -> flt x best = false) ->
             let r := arg_scan flt l (length pre) besti best in
             r < length (pre ++ l) /\
             forall x, In x (pre ++ l) -> flt x (nth r (pre ++ l) NaN) = false).
  { clear. induction l as [|x t IH]; intros pre besti best Hlt Hbest Hdom; simpl.
    - rewrite app_nil_r. split; [exact Hlt|]. rewrite Hbest. exact Hdom.
    - destruct (is_nan best) eqn:Enan.
      + destruct best; try discriminate.
        rewrite length_app. split; [lia|].
        intros y _. rewrite app_nth1, Hbest by exact Hlt. apply flt_nan_r.
      + replace (pre ++ x :: t) with ((pre ++ [x]) ++ t)
          by (rewrite <- app_assoc; reflexivity).
        replace (S (length pre)) with (length (pre ++ [x]))
          by (rewrite length_app; simpl; lia).
        destruct (is_nan x || flt x best) eqn:Ebet.
        * apply IH.
          -- rewrite length_app. simpl. lia.
          -- rewrite app_nth2, Nat.sub_diag by lia. reflexivity.
          -- intros y Hy. apply in_app_iff in Hy. destruct Hy as [Hy|[<-|[]]].
             ++ apply orb_true_iff in Ebet. destruct Ebet as [Ex|Ex].
                ** destruct x; try discriminate. apply flt_nan_r.
                ** destruct (flt y x) eqn:Eyx; [|reflexivity].
                   pose proof (flt_trans _ _ _ Eyx Ex) as Ht.
                   rewrite (Hdom y Hy) in Ht. discriminate.
             ++ destruct x as [a| | |]; try reflexivity. simpl.
                apply Qltb_ge. apply Qle_refl.
        * apply orb_false_iff in Ebet. destruct Ebet as [_ Ex].
          apply IH.
          -- rewrite length_app. simpl. lia.
          -- rewrite app_nth1 by exact Hlt. exact Hbest.
          -- intros y Hy. apply in_app_iff in Hy. destruct Hy as [Hy|[<-|[]]]; auto. }
  apply (Hgen t [x0] 0 x0); simpl; [lia | reflexivity |].
  intros y [<-|[]]. destruct x0 as [a| | |]; try reflexivity.
  simpl. apply Qltb_ge. apply Qle_refl.
Qed.

Lemma decreasing_pairs (V : list Q) :
  strictly_decreasing V ->
  forall i j, i < j -> j < length V -> (nth j V 0 < nth i V 0)%Q.
Proof.
  unfold strictly_decreasing.
  induction V as [|a t IH]; intros H i j Hij Hj; [simpl in Hj; lia|].
  destruct j as [|j]; [lia|]. simpl in Hj.
  assert (Hhead : forall (t : list Q) a, steps (fun x y => (y < x)%Q) (a :: t) ->
                    Forall (fun c => (c < a)%Q) t).
  { clear. induction t as [|b t IH]; intros a H; [constructor|].
    destruct H as [Hab H]. constructor; [exact Hab|].
    eapply Forall_impl; [|apply IH; exact H]. intros c Hc. simpl in Hc. lra. }
  destruct i as [|i].
  - simpl. pose proof (Hhead t a H) as HF. rewrite Forall_forall in HF.
    apply HF. apply nth_In. lia.
  - simpl. apply IH; [|lia|lia]. destruct t; simpl in *; tauto.
Qed.

Lemma getitem_Ok_nth {A : Type} (l : list A) (i : nat) (d : A) :
  i < length l -> getitem l i = Ok (nth i l d).
Proof.
  intro Hi. unfold getitem.
  destruct (nth_error l i) as [a|] eqn:E.
  - f_equal. symmetry. now apply nth_error_nth.
  - apply nth_error_None in E. lia.
Qed.

Section MinFit.
Variable Spline : Type.
Variable UnivariateSpline : list Q -> list float -> result Spline.
Variable np_arange : Q -> Q -> Q -> list Q.
Variable d2_peaks : Spline -> list Q -> list nat -> result (list nat).
Variable curve_fit : list Q -> list float -> bounds -> result (Q * Q).

(** X7.  [_min_fit] looks at [V[2]] and [V[1]] first and at the peak
    record next: with fewer than three voltages it raises [IndexError];
    with three or more but no peak record, or with a peak record whose
    voltages are all zero on an object whose quadrant was never set, it
    raises [AttributeError].  In each case nothing is written and the
    library is not called. *)
Theorem min_fit_preconditions (Id : list float) (V : list Q) (s : OECT) :
  (length V < 3 ->
   _min_fit UnivariateSpline np_arange d2_peaks curve_fit Id V s = (Raise IndexError, s)) /\
  (3 <= length V -> gm_peaks s = None ->
   _min_fit UnivariateSpline np_arange d2_peaks curve_fit Id V s = (Raise AttributeError, s)) /\
  (3 <= length V -> quad s = None ->
   forall pks, gm_peaks s = Some pks ->
               (forall v, In v (map fst pks) -> (v == 0)%Q) ->
   _min_fit UnivariateSpline np_arange d2_peaks curve_fit Id V s = (Raise AttributeError, s)).
Proof.
  split; [|split].
  - intro H. destruct V as [|a [|b [|c t]]]; try reflexivity. simpl in H. lia.
  - intros H Hpk. destruct V as [|a [|b [|c t]]]; try (simpl in H; lia).
    assert (Hquad : quadrant s = (Raise AttributeError, s)).
    { unfold quadrant, bindM, attr. rewrite Hpk. reflexivity. }
    unfold _min_fit, bindM, lift, getitem. cbn [nth_error]. rewrite Hquad.
    reflexivity.
  - intros H Hq pks Hpk Hzero. destruct V as [|a [|b [|c t]]]; try (simpl in H; lia).
    assert (Hc : quadrant_choice (map fst pks) = None).
    { unfold quadrant_choice.
      destruct (any_negative (map fst pks)) eqn:En.
      - apply any_negative_spec in En. destruct En as [v [Hin Hv]].
        specialize (Hzero v Hin). lra.
      - destruct (any_positive (map fst pks)) eqn:Ep; [|reflexivity].
        apply any_positive_spec in Ep. destruct Ep as [v [Hin Hv]].
        specialize (Hzero v Hin). lra. }
    assert (Hquad : quadrant s = (Ok tt, s)).
    { unfold quadrant, bindM, attr. rewrite Hpk, Hc. reflexivity. }
    unfold _min_fit, bindM, lift, getitem. cbn [nth_error]. rewrite Hquad.
    unfold attr. rewrite Hq. reflexivity.
Qed.

(** X8.  A sweep handed over in descending order is fitted as its
    reverse: [_min_fit] gives on [(Id, V)] what it gives on the flipped
    arrays. *)
Theorem min_fit_flips_descending (Id : list float) (V : list Q) (s : OECT) :
  3 <= length V -> strictly_decreasing V ->
  _min_fit UnivariateSpline np_arange d2_peaks curve_fit Id V s
  = _min_fit UnivariateSpline np_arange d2_peaks curve_fit (flip Id) (flip V) s.
Proof.
  intros Hlen Hdec. unfold flip.
  pose proof (decreasing_pairs V Hdec) as Hp.
  assert (H21 : Qltb (nth 2 V 0%Q) (nth 1 V 0%Q) = true)
    by (apply Qltb_lt; apply Hp; lia).
  assert (Hr2 : nth 2 (rev V) 0%Q = nth (length V - 3) V 0%Q)
    by (rewrite rev_nth by lia; reflexivity).
  assert (Hr1 : nth 1 (rev V) 0%Q = nth (length V - 2) V 0%Q)
    by (rewrite rev_nth by lia; reflexivity).
  assert (H21' : Qltb (nth 2 (rev V) 0%Q) (nth 1 (rev V) 0%Q) = false).
  { rewrite Hr2, Hr1. apply Qltb_ge. apply Qlt_le_weak. apply Hp; lia. }
  unfold _min_fit.
  rewrite (getitem_Ok_nth V 2 0%Q) by lia.
  rewrite (getitem_Ok_nth V 1 0%Q) by lia.
  rewrite (getitem_Ok_nth (rev V) 2 0%Q) by (rewrite length_rev; lia).
  rewrite (getitem_Ok_nth (rev V) 1 0%Q) by (rewrite length_rev; lia).
  assert (Hstep : forall (A B : Type) (a : A) (k : A -> M B) (st : OECT),
             bindM (lift (Ok a)) k st = k a st) by reflexivity.
  repeat (rewrite Hstep; cbv beta).
  rewrite H21, H21'. reflexivity.
Qed.

(** X9.  When [_min_fit] returns, the candidates are the positions
    [_find_peak] gives for the arrays of the quadrant (current times 1000),
    one fit is made per candidate, and the fit returned is one of them: no
    candidate has a smaller residual than the one it comes from. *)
Theorem min_fit_returns_least_residual
  (Id : list float) (V : list Q) (s s' : OECT) (fit : Q * Q) :
  _min_fit UnivariateSpline np_arange d2_peaks curve_fit Id V s = (Ok fit, s') ->
  exists q mx cands c,
    quad s' = Some q /\
    _find_peak UnivariateSpline np_arange d2_peaks
               (map (fun x => fmul x (Fin 1000)) (fst (fit_arrays q Id V)))
               (snd (fit_arrays q Id V)) default_width = Ok mx /\
    map_result (fit_candidate curve_fit (fst (fit_arrays q Id V))
                              (snd (fit_arrays q Id V))) mx = Ok cands /\
    In c cands /\
    (forall c', In c' cands -> flt (snd c') (snd c) = false) /\
    fit = returned_fit q (fst c).
Proof.
  intro H. unfold _min_fit in H.
  apply bindM_Ok in H. destruct H as (v2 & s1 & E & H). apply lift_Ok in E. destruct E as [E2 ->].
  apply bindM_Ok in H. destruct H as (v1 & s2 & E & H). apply lift_Ok in E. destruct E as [E1 ->].
  apply bindM_Ok in H. destruct H as ([] & s3 & _ & H).
  apply bindM_Ok in H. destruct H as (q & s4 & E & H). apply attr_Ok in E. destruct E as [Hq ->].
  apply bindM_Ok in H. destruct H as (mx & s5 & E & H). apply lift_Ok in E. destruct E as [Hmx ->].
  apply bindM_Ok in H. destruct H as (mx' & s6 & E & H).
  assert (Hmx' : _find_peak UnivariateSpline np_arange d2_peaks
                   (map (fun x => fmul x (Fin 1000))
                        match q with
                        | QI => flip (if Qltb v2 v1 then flip Id else Id)
                        | QIII => if Qltb v2 v1 then flip Id else Id
                        end)
                   match q with
                   | QI => flip (map Qopp (if Qltb v2 v1 then flip V else V))
                   | QIII => if Qltb v2 v1 then flip V else V
                   end default_width = Ok mx' /\ s6 = s3).
  { destruct mx; [apply lift_Ok in E; exact E | inversion E; subst; split; [exact Hmx | reflexivity]]. }
  destruct Hmx' as [Hmx' ->]. clear E Hmx.
  apply bindM_Ok in H. destruct H as (cands & s7 & E & H). apply lift_Ok in E.
  destruct E as [Hc ->].
  destruct cands as [|c0 cands0]; [inversion H|].
  remember (c0 :: cands0) as cands eqn:Hcands. clear Hcands.
  apply bindM_Ok in H. destruct H as (k & s8 & E & H). apply lift_Ok in E. destruct E as [Hk ->].
  apply bindM_Ok in H. destruct H as (f & s9 & E & H). apply lift_Ok in E. destruct E as [Hf ->].
  inversion H; subst fit s'. clear H.
  apply np_argmin_spec in Hk. destruct Hk as [Hklen Hmin]. rewrite length_map in Hklen.
  destruct (nth_error cands k) as [c|] eqn:Ec; [|apply nth_error_None in Ec; lia].
  exists q, mx', cands, c.
  rewrite (getitem_nth V 2 v2 0%Q E2), (getitem_nth V 1 v1 0%Q E1) in Hc, Hmx'.
  split; [exact Hq|]. split.
  { unfold fit_arrays. destruct q; exact Hmx'. }
  split.
  { unfold fit_arrays. destruct q; exact Hc. }
  split; [eapply nth_error_In; exact Ec|]. split.
  - intros c' Hc'.
    assert (Hn : nth k (map snd cands) NaN = snd c).
    { apply nth_error_nth. rewrite nth_error_map, Ec. reflexivity. }
    rewrite <- Hn. apply Hmin. now apply in_map.
  - unfold getitem in Hf. rewrite nth_error_map, Ec in Hf. simpl in Hf.
    inversion Hf; subst f. unfold returned_fit. destruct q; reflexivity.
Qed.
End MinFit.

Lemma min_fit_preconditions_witness :
  _min_fit data_spline exact_arange (scripted_peaks []) lsq_line [] [1; 2; 3]%Q (init "sg" true)
  = (Raise AttributeError, init "sg" true).
Proof.
  apply (proj1 (proj2 (min_fit_preconditions _ data_spline exact_arange (scripted_peaks []) lsq_line
                         [] [1; 2; 3]%Q (init "sg" true)))).
  - simpl. lia.
  - reflexivity.
Defined.

Lemma min_fit_flips_descending_witness :
  let s := final (gm_computed true [("-0.6_0"%string, line_curve)]) in
  let Id := map Fin [0; 0.4; 0.8; 1.2; 1.6; 2]%Q in
  let V := [-1; -1.4; -1.8; -2.2; -2.6; -3]%Q in
  _min_fit_ref [3; 300; 399] Id V s = _min_fit_ref [3; 300; 399] (flip Id) (flip V) s.
Proof.
  intros s Id V.
  apply (min_fit_flips_descending _ data_spline exact_arange (scripted_peaks [3; 300; 399]) lsq_line Id V s).
  - simpl. lia.
  - unfold strictly_decreasing. simpl. repeat split; reflexivity.
Defined.

Lemma min_fit_returns_least_residual_witness :
  let s := final (gm_computed true [("-0.6_0"%string, line_curve)]) in
  let Id := map Fin [2; 1.6; 1.2; 0.8; 0.4; 0]%Q in
  let V := [-3; -2.6; -2.2; -1.8; -1.4; -1]%Q in
  let s' := final (_min_fit_ref [3; 300; 399] Id V s) in
  exists q mx cands c,
    quad s' = Some q /\
    _find_peak data_spline exact_arange (scripted_peaks [3; 300; 399])
               (map (fun x => fmul x (Fin 1000)) (fst (fit_arrays q Id V)))
               (snd (fit_arrays q Id V)) default_width = Ok mx /\
    map_result (fit_candidate lsq_line (fst (fit_arrays q Id V))
                              (snd (fit_arrays q Id V))) mx = Ok cands /\
    In c cands /\
    (forall c', In c' cands -> flt (snd c') (snd c) = false) /\
    (-1, -1)%Q = returned_fit q (fst c).
Proof.
  intros s Id V s'.
  apply (min_fit_returns_least_residual _ data_spline exact_arange (scripted_peaks [3; 300; 399])
           lsq_line Id V s s' (-1, -1)%Q).
  vm_compute. reflexivity.
Defined.

(** ** Calling the steps out of order *)

(** X10.  [thresh] on an object whose peak record was never computed
    raises [AttributeError] and writes nothing; so does [calc_gms] on a
    freshly loaded object that has no transfer curve. *)
Theorem steps_need_gm_peaks
  (gm_deriv : list Q -> list float -> string -> fitparams -> result (list float))
  (np_sqrt : Q -> Q) (Spline : Type)
  (UnivariateSpline : list Q -> list float -> result Spline)
  (np_arange : Q -> Q -> Q -> list Q)
  (d2_peaks : Spline -> list Q -> list nat -> result (list nat))
  (curve_fit : list Q -> list float -> bounds -> result (Q * Q))
  (s : OECT) :
  gm_peaks s = None ->
  thresh np_sqrt UnivariateSpline np_arange d2_peaks curve_fit s = (Raise AttributeError, s) /\
  (transfer s = [] -> gm_fwd s = [] -> gm_bwd s = [] ->
   calc_gms gm_deriv s = (Raise AttributeError, s)).
Proof.
  intro Hpk. split.
  - unfold thresh, bindM, reads, attr. rewrite Hpk. reflexivity.
  - intros Ht Hf Hb. unfold calc_gms, bindM, reads, attr. rewrite Ht. simpl.
    rewrite Hf. simpl. rewrite Hb. simpl. rewrite Hpk. reflexivity.
Qed.

Lemma steps_need_gm_peaks_witness :
  thresh_ref [] (init "sg" true) = (Raise AttributeError, init "sg" true) /\
  calc_gms_ref (init "sg" true) = (Raise AttributeError, init "sg" true).
Proof.
  destruct (steps_need_gm_peaks fd_gradient exact_sqrt _ data_spline exact_arange (scripted_peaks [])
              lsq_line (init "sg" true)) as [Ht Hc]; [reflexivity|].
  split; [exact Ht | apply Hc; reflexivity].
Defined.

(** ** One curve through [_calc_gm] *)

Lemma map_fst_combine {A B : Type} (l : list A) (l' : list B) :
  length l' = length l -> map fst (combine l l') = l.
Proof.
  revert l'. induction l as [|a l IH]; intros [|b l'] H; simpl in *; try lia; [reflexivity|].
  f_equal. apply IH. lia.
Qed.

Section CalcGm.
Variable gm_deriv : list Q -> list float -> string -> fitparams -> result (list float).

Lemma get_gm_index (v : list Q) (i : list float) (m : string) (p : fitparams) (gm : series) :
  get_gm gm_deriv v i m p = Ok gm -> map fst gm = v.
Proof.
  unfold get_gm. intro H. apply bind_Ok in H. destruct H as [gml [_ H]].
  destruct (length gml =? length v) eqn:E; inversion H; subst.
  apply Nat.eqb_eq in E. now apply map_fst_combine.
Qed.

Lemma gm_peak_nonempty (gm : series) (p : Q * float) : gm_peak gm = Ok p -> gm <> [].
Proof. intros H ->. discriminate. Qed.

(** X11.  When [_calc_gm] returns, the forward gm curve is indexed by the
    voltages before the split index and is not empty; with a reverse leg
    the backward curve is indexed by the remaining voltages in reverse
    order, is not empty, and the two curves together carry every voltage
    of the sweep once; without one the backward curve is empty (the
    voltages from the split index on get no gm value). *)
Theorem calc_gm_covers_sweep (s : OECT) (df gf gb pks : series) (mx : nat) :
  rev_point s = Some mx ->
  _calc_gm gm_deriv s df = Ok (gf, gb, pks) ->
  1 <= mx < length df /\
  map fst gf = firstn mx (map fst df) /\
  (if reverse s
   then map fst gb = rev (skipn mx (map fst df)) /\
        map fst gf ++ rev (map fst gb) = map fst df
   else gb = []).
Proof.
  intros Hmx H. unfold _calc_gm in H. rewrite Hmx in H.
  apply bind_Ok in H. destruct H as [mx' [E H]]. inversion E; subst mx'. clear E.
  apply bind_Ok in H. destruct H as [v0 [_ H]].
  apply bind_Ok in H. destruct H as [vm [Hvm H]].
  apply bind_Ok in H. destruct H as [fwd [Hfwd H]].
  apply bind_Ok in H. destruct H as [p1 [Hp1 H]].
  apply get_gm_index in Hfwd. apply gm_peak_nonempty in Hp1.
  unfold slice_to in Hfwd.
  assert (Hlt : mx < length df).
  { unfold getitem in Hvm. destruct (nth_error (map fst df) mx) eqn:E; [|discriminate].
    assert (mx < length (map fst df)) by (apply nth_error_Some; congruence).
    now rewrite length_map in *. }
  assert (Hpos : 1 <= mx).
  { destruct mx; [|lia]. simpl in Hfwd. destruct fwd; [congruence | discriminate]. }
  destruct (reverse s).
  - apply bind_Ok in H. destruct H as [bwd [Hbwd H]].
    apply bind_Ok in H. destruct H as [p2 [_ H]].
    inversion H; subst. clear H.
    apply get_gm_index in Hbwd. unfold flip, slice_from in Hbwd.
    repeat split; try assumption; try lia.
    rewrite Hfwd, Hbwd, rev_involutive. apply firstn_skipn.
  - inversion H; subst. repeat split; try assumption; lia.
Qed.

(** X12.  [_calc_gm] raises [IndexError], before any derivative is taken,
    when no split index was stored or when the curve has no sample at the
    stored split index (a curve shorter than the one the index was found
    on). *)
Theorem calc_gm_needs_split_sample (s : OECT) (df : series) :
  rev_point s = None \/ (exists mx, rev_point s = Some mx /\ length df <= mx) ->
  _calc_gm gm_deriv s df = Raise IndexError.
Proof.
  intros [Hn | [mx [Hmx Hlen]]]; unfold _calc_gm.
  - rewrite Hn. reflexivity.
  - rewrite Hmx. unfold getitem, bind.
    destruct (nth_error (map fst df) 0); [|reflexivity].
    destruct (nth_error (map fst df) mx) eqn:E; [|reflexivity].
    assert (mx < length (map fst df)) by (apply nth_error_Some; congruence).
    rewrite length_map in *. lia.
Qed.
End CalcGm.

Lemma calc_gm_covers_sweep_witness :
  let s := final (loaded true [("-0.6_0"%string, round_trip_curve)]) in
  let gf := [(0, Fin 1); (1, Fin 1)]%Q in
  let gb := [(0, Fin 1); (1, Fin (3 # 2)); (2, Fin 2)]%Q in
  1 <= 2 < length round_trip_curve /\
  map fst gf = firstn 2 (map fst round_trip_curve) /\
  (if reverse s
   then map fst gb = rev (skipn 2 (map fst round_trip_curve)) /\
        map fst gf ++ rev (map fst gb) = map fst round_trip_curve
   else gb = []).
Proof.
  intros s gf gb.
  apply (calc_gm_covers_sweep fd_gradient s round_trip_curve gf gb
           [(0%Q, Fin 1); (2%Q, Fin 2)] 2); vm_compute; reflexivity.
Defined.

Lemma calc_gm_needs_split_sample_witness :
  let s := final (loaded true [("-0.6_0"%string, line_curve)]) in
  _calc_gm fd_gradient s dip_curve = Raise IndexError.
Proof.
  intro s. apply (calc_gm_needs_split_sample fd_gradient s dip_curve).
  right. exists 6. split; [reflexivity | simpl; lia].
Defined.

(** ** Dictionaries *)

Lemma dict_mem_set {A : Type} (k k' : string) (a : A) (d : list (string * A)) :
  dict_mem k (dict_set k' a d) = String.eqb k k' || dict_mem k d.
Proof.
  unfold dict_mem. induction d as [|[k0 a0] d IH]; simpl.
  - reflexivity.
  - destruct (String.eqb k' k0) eqn:E; simpl.
    + apply String.eqb_eq in E. subst k0.
      destruct (String.eqb k k'); reflexivity.
    + rewrite IH. destruct (String.eqb k k0), (String.eqb k k'); reflexivity.
Qed.

Lemma dict_get_set {A : Type} (k k' : string) (a : A) (d : list (string * A)) :
  dict_get k (dict_set k' a d) = if String.eqb k k' then Some a else dict_get k d.
Proof.
  unfold dict_get. induction d as [|[k0 a0] d IH]; simpl.
  - destruct (String.eqb k k'); reflexivity.
  - destruct (String.eqb k' k0) eqn:E; simpl.
    + apply String.eqb_eq in E. subst k0.
      destruct (String.eqb k k'); reflexivity.
    + destruct (String.eqb k k0) eqn:E0.
      * apply String.eqb_eq in E0. subst k0.
        rewrite String.eqb_sym, E. reflexivity.
      * exact IH.
Qed.

Lemma dict_mem_get {A : Type} (k : string) (d : list (string * A)) :
  dict_mem k d = match dict_get k d with Some _ => true | None => false end.
Proof.
  unfold dict_mem, dict_get. induction d as [|[k0 a0] d IH]; simpl; [reflexivity|].
  destruct (String.eqb k k0); [reflexivity | exact IH].
Qed.

(** ** [calc_gms]: the entries it leaves *)

Section Entries.
Variable gm_deriv : list Q -> list float -> string -> fitparams -> result (list float).

Lemma calc_gms_loop_entries (d : list (string * series)) :
  forall s s1,
    calc_gms_loop gm_deriv d s = (Ok tt, s1) ->
    forall k, dict_mem k d = true \/
              (dict_mem k (gm_fwd s) = true /\ dict_mem k (gm_bwd s) = true) ->
              dict_mem k (gm_fwd s1) = true /\ dict_mem k (gm_bwd s1) = true.
Proof.
  induction d as [|[i df] d IH]; intros s s1 H k Hk.
  - simpl in H. unfold ret in H. inversion H; subst.
    destruct Hk as [Hk|Hk]; [discriminate | exact Hk].
  - rewrite calc_gms_loop_step in H.
    destruct (_calc_gm gm_deriv s df) as [r|] eqn:E; [|discriminate].
    apply (IH _ _ H k). simpl.
    rewrite !dict_mem_set.
    destruct (String.eqb k i) eqn:Ei.
    + right. split; reflexivity.
    + destruct Hk as [Hk|Hk].
      * left. unfold dict_mem in *. simpl in Hk. rewrite Ei in Hk. exact Hk.
      * right. exact Hk.
Qed.

Lemma gather_gms_keeps_curves (d : list (string * series)) :
  forall labels s,
    gm_fwd (final (gather_gms d labels s)) = gm_fwd s /\
    gm_bwd (final (gather_gms d labels s)) = gm_bwd s /\
    gm_peaks (final (gather_gms d labels s)) = gm_peaks s.
Proof.
  induction d as [|[g gm] d IH]; intros labels s; [repeat split; reflexivity|].
  simpl. destruct gm as [|row gm]; [apply IH|].
  unfold bindM, reads, lift, writes.
  destruct (frame_set _ _ _) as [fr'|]; [|repeat split; reflexivity].
  match goal with |- context [gather_gms d ?l ?st] => destruct (IH l st) as (E1 & E2 & E3) end.
  rewrite E1, E2, E3. repeat split; reflexivity.
Qed.

(** X13.  When [calc_gms] returns, every key of the transfer dictionary
    has a forward gm entry and a backward gm entry, and [peak_gm] holds the
    peak values of the stored peak record. *)
Theorem calc_gms_entries (s s' : OECT) :
  calc_gms gm_deriv s = (Ok tt, s') ->
  (forall k, dict_mem k (transfer s) = true ->
             dict_mem k (gm_fwd s') = true /\ dict_mem k (gm_bwd s') = true) /\
  peak_gm s' = option_map (map snd) (gm_peaks s').
Proof.
  intro H. unfold calc_gms in H.
  apply bindM_Ok in H. destruct H as (d & s1 & E & H).
  apply reads_Ok in E. destruct E as [-> ->].
  apply bindM_Ok in H. destruct H as ([] & s2 & Eloop & H).
  apply bindM_Ok in H. destruct H as (fwd & s3 & E & H).
  apply reads_Ok in E. destruct E as [-> ->].
  apply bindM_Ok in H. destruct H as (labels & s4 & E4 & H).
  pose proof (gather_gms_keeps_curves (gm_fwd s2) 0 s2) as K1.
  unfold final in K1. rewrite E4 in K1. simpl in K1. destruct K1 as (F1 & B1 & P1).
  apply bindM_Ok in H. destruct H as (bwd & s5 & E & H).
  apply reads_Ok in E. destruct E as [-> ->].
  apply bindM_Ok in H. destruct H as (labels' & s6 & E6 & H).
  pose proof (gather_gms_keeps_curves (gm_bwd s4) labels s4) as K2.
  unfold final in K2. rewrite E6 in K2. simpl in K2. destruct K2 as (F2 & B2 & P2).
  apply bindM_Ok in H. destruct H as (pks & s7 & E & H).
  apply attr_Ok in E. destruct E as [Hpk ->].
  apply writes_Ok in H. subst s'. simpl. split.
  - intros k Hk. rewrite F2, F1, B2, B1.
    apply (calc_gms_loop_entries _ _ _ Eloop k). left. exact Hk.
  - rewrite Hpk. reflexivity.
Qed.
End Entries.

Lemma calc_gms_entries_witness :
  let s := final (loaded true [("-0.6_0"%string, line_curve);
                               ("-0.6_1"%string, zero_curve)]) in
  let s' := final (calc_gms_ref s) in
  (forall k, dict_mem k (transfer s) = true ->
             dict_mem k (gm_fwd s') = true /\ dict_mem k (gm_bwd s') = true) /\
  peak_gm s' = option_map (map snd) (gm_peaks s').
Proof.
  intros s s'. apply (calc_gms_entries fd_gradient s s'). vm_compute. reflexivity.
Defined.

(** ** [set_params] *)

Lemma update_from_keys (src : pydict) (k : string) (ks : list string) : forall dst,
  dict_get k (fold_left (fun acc k' => match dict_get k' src with
                                       | Some v => dict_set k' v acc
                                       | None => acc
                                       end) ks dst)
  = if existsb (String.eqb k) ks
    then match dict_get k src with Some v => Some v | None => dict_get k dst end
    else dict_get k dst.
Proof.
  induction ks as [|k' ks IH]; intro dst; simpl; [reflexivity|].
  rewrite IH. destruct (String.eqb k k') eqn:E; simpl.
  - apply String.eqb_eq in E. subst k'.
    destruct (dict_get k src) as [v|] eqn:Es.
    + rewrite dict_get_set, String.eqb_refl. destruct (existsb _ ks); reflexivity.
    + destruct (existsb _ ks); reflexivity.
  - destruct (dict_get k' src) as [v|]; [|reflexivity].
    rewrite dict_get_set, E. reflexivity.
Qed.

Lemma dict_get_key_listed {A : Type} (k : string) (d : list (string * A)) (a : A) :
  dict_get k d = Some a -> existsb (String.eqb k) (map fst d) = true.
Proof.
  unfold dict_get. induction d as [|[k0 a0] d IH]; simpl; [discriminate|].
  destruct (String.eqb k k0); [reflexivity | exact IH].
Qed.

Lemma dict_get_update_from (src dst : pydict) (k : string) :
  dict_get k (update_from src dst)
  = match dict_get k src with Some v => Some v | None => dict_get k dst end.
Proof.
  unfold update_from. rewrite update_from_keys.
  destruct (dict_get k src) as [v|] eqn:E.
  - now rewrite (dict_get_key_listed k src v E).
  - destruct (existsb _ _); reflexivity.
Qed.

Lemma dict_get_set_default (k k' : string) (v : pyval) (d : pydict) :
  dict_get k (set_default k' v d)
  = match dict_get k d with
    | Some x => Some x
    | None => if String.eqb k k' then Some v else None
    end.
Proof.
  unfold set_default. rewrite dict_mem_get.
  destruct (dict_get k' d) as [x|] eqn:E.
  - destruct (dict_get k d) as [y|] eqn:Ek; [reflexivity|].
    destruct (String.eqb k k') eqn:Ekk; [|reflexivity].
    apply String.eqb_eq in Ekk. subst. congruence.
  - rewrite dict_get_set. destruct (String.eqb k k') eqn:Ekk.
    + apply String.eqb_eq in Ekk. subst. now rewrite E.
    + destruct (dict_get k d); reflexivity.
Qed.

(** X14.  What a key holds after [set_params]: the value passed by the
    caller, if the caller's dictionary has a key that is not the empty
    string; otherwise the value from the configuration file; otherwise, for
    the five processing options, the default.  A caller's dictionary whose
    only key is the empty string is ignored. *)
Theorem set_params_precedence (par opt params options : pydict) (k : string) :
  dict_get k (snd (set_params par opt params options))
  = match (if any_key options then dict_get k options else None) with
    | Some v => Some v
    | None => match dict_get k opt with
              | Some v => Some v
              | None => default_option k
              end
    end /\
  dict_get k (fst (set_params par opt params options))
  = match (if any_key params then dict_get k params else None) with
    | Some v => Some v
    | None => dict_get k par
    end.
Proof.
  unfold set_params. cbv zeta. simpl fst. simpl snd. split.
  - rewrite !dict_get_set_default. unfold default_option.
    assert (Hbase : dict_get k (update_from opt []) = dict_get k opt).
    { rewrite dict_get_update_from. destruct (dict_get k opt); reflexivity. }
    destruct (any_key options).
    + rewrite dict_get_update_from, Hbase.
      destruct (dict_get k options); [reflexivity|].
      destruct (dict_get k opt); [reflexivity|].
      repeat match goal with |- context [String.eqb k ?x] => destruct (String.eqb k x) end;
        reflexivity.
    + rewrite Hbase. destruct (dict_get k opt); [reflexivity|].
      repeat match goal with |- context [String.eqb k ?x] => destruct (String.eqb k x) end;
        reflexivity.
  - assert (Hbase : dict_get k (update_from par []) = dict_get k par).
    { rewrite dict_get_update_from. destruct (dict_get k par); reflexivity. }
    destruct (any_key params).
    + now rewrite dict_get_update_from, Hbase.
    + exact Hbase.
Qed.

(** ** Keys of the transfer dictionary *)

Lemma string_length_app (a b : string) :
  String.length (a ++ b) = String.length a + String.length b.
Proof. induction a as [|c a IH]; simpl; [reflexivity | now rewrite IH]. Qed.

Lemma eqb_app_l (a b c : string) : String.eqb (a ++ b) (a ++ c) = String.eqb b c.
Proof.
  induction a as [|x a IH]; simpl; [reflexivity|].
  now rewrite Ascii.eqb_refl.
Qed.

Lemma last_char_app (a b : string) :
  0 < String.length b -> last_char (a ++ b) = last_char b.
Proof.
  intro Hb. unfold last_char. rewrite string_length_app.
  replace (String.length a + String.length b - 1)
    with (String.length b - 1 + String.length a) by lia.
  now rewrite <- append_correct2.
Qed.

Lemma numbered_eqb (Vd : string) (i j : nat) :
  i <= 11 -> j <= 11 -> String.eqb (numbered Vd i) (numbered Vd j) = (i =? j).
Proof.
  intros Hi Hj. unfold numbered. rewrite eqb_app_l.
  do 12 (destruct i as [|i];
         [do 12 (destruct j as [|j]; [reflexivity|]); lia|]).
  lia.
Qed.

Lemma numbered_digit (Vd : string) (i : nat) :
  i <= 10 ->
  (ch <- last_char (numbered Vd i) ;; int_of_char ch) = Ok (if i =? 10 then 0 else i).
Proof.
  intro Hi. unfold numbered. rewrite last_char_app.
  - do 11 (destruct i as [|i]; [reflexivity|]). lia.
  - do 11 (destruct i as [|i]; [simpl; lia|]). lia.
Qed.

Lemma dict_set_fresh {A : Type} (k : string) (a : A) (d : list (string * A)) :
  dict_mem k d = false -> dict_set k a d = d ++ [(k, a)].
Proof.
  unfold dict_mem. induction d as [|[k0 a0] d IH]; simpl; [reflexivity|].
  intro H. apply orb_false_iff in H. destruct H as [H0 H].
  rewrite H0. f_equal. now apply IH.
Qed.

Lemma combine_app {A B : Type} (l1 l2 : list A) (m1 m2 : list B) :
  length l1 = length m1 ->
  combine (l1 ++ l2) (m1 ++ m2) = combine l1 m1 ++ combine l2 m2.
Proof.
  revert m1. induction l1 as [|a l1 IH]; intros [|b m1] H; simpl in *; try lia; [reflexivity|].
  f_equal. apply IH. lia.
Qed.

Section Keys.
Variable Vd : string.

Lemma keys_fresh (m m' : nat) (rs : list series) :
  m' <= m -> m <= 11 ->
  dict_mem (numbered Vd m) (combine (map (numbered Vd) (seq 0 m')) rs) = false.
Proof.
  intros Hm' Hm.
  destruct (dict_mem _ _) eqn:E; [|reflexivity].
  unfold dict_mem in E. apply existsb_exists in E. destruct E as [[k r] [Hin Hk]].
  apply in_combine_l in Hin. apply in_map_iff in Hin. destruct Hin as [i [<- Hi]].
  apply in_seq in Hi. simpl in Hk. rewrite numbered_eqb in Hk by lia.
  apply Nat.eqb_eq in Hk. lia.
Qed.

(** A curve loaded while the dictionary holds [Vd_0 .. Vd_(m-1)], for
    [m <= 10], is stored under the new key [Vd_m]. *)
Lemma transfer_curve_next (m : nat) (rs : list series) (r : series) (s : OECT) :
  length rs = m -> m <= 10 ->
  transfer s = combine (map (numbered Vd) (seq 0 m)) rs ->
  transfer_curve Vd r s
  = (Ok tt, set_transfer (combine (map (numbered Vd) (seq 0 (S m))) (rs ++ [r])) s).
Proof.
  intros Hlen Hm Htr.
  assert (Hnew : combine (map (numbered Vd) (seq 0 (S m))) (rs ++ [r])
                 = transfer s ++ [(numbered Vd m, r)]).
  { rewrite seq_S, map_app, combine_app by (now rewrite length_map, length_seq).
    rewrite Htr. reflexivity. }
  rewrite Hnew.
  unfold transfer_curve, bindM, reads, lift, writes.
  assert (Hkey : transfer_key Vd (transfer s) = Ok (numbered Vd m)).
  { unfold transfer_key. change (Vd ++ "_0")%string with (numbered Vd 0).
    destruct m as [|m].
    - destruct rs; [|discriminate]. rewrite Htr. reflexivity.
    - destruct rs as [|r0 rs]; [discriminate|].
      assert (Hmem : dict_mem (numbered Vd 0) (transfer s) = true).
      { rewrite Htr. unfold dict_mem. simpl. now rewrite String.eqb_refl. }
      rewrite Hmem.
      assert (Hfst : map fst (transfer s) = map (numbered Vd) (seq 0 (S m))).
      { rewrite Htr. apply map_fst_combine. now rewrite length_map, length_seq. }
      assert (Hl : length (transfer s) = S m).
      { rewrite <- (length_map fst), Hfst, length_map, length_seq. reflexivity. }
      rewrite Hfst, Hl.
      rewrite (getitem_Ok_nth _ _ ""%string) by (rewrite length_map, length_seq; lia).
      rewrite nth_map_seq by lia.
      replace (0 + (S m - 1)) with m by lia.
      unfold bind at 1.
      pose proof (numbered_digit Vd m) as Hd.
      destruct (last_char (numbered Vd m)) as [ch|]; simpl in Hd |- *;
        [|specialize (Hd ltac:(lia)); discriminate].
      rewrite Hd by lia.
      replace (m =? 10) with false by (symmetry; apply Nat.eqb_neq; lia).
      unfold bind, numbered. replace (m + 1) with (S m) by lia. reflexivity. }
  rewrite Hkey. do 2 f_equal.
  apply dict_set_fresh. rewrite Htr. apply keys_fresh; lia.
Qed.

Lemma load_transfers_numbered (rest : list series) :
  forall (m : nat) (rs : list series) (s : OECT),
    length rs = m -> m + length rest <= 11 ->
    transfer s = combine (map (numbered Vd) (seq 0 m)) rs ->
    load_transfers (map (pair Vd) rest) s
    = (Ok tt, set_transfer (combine (map (numbered Vd) (seq 0 (m + length rest)))
                                    (rs ++ rest)) s).
Proof.
  induction rest as [|r rest IH]; intros m rs s Hlen Hm Htr.
  - simpl. rewrite Nat.add_0_r, app_nil_r, <- Htr. unfold ret.
    destruct s; reflexivity.
  - simpl in Hm. simpl map. simpl load_transfers. unfold bindM.
    rewrite (transfer_curve_next m rs r s Hlen ltac:(lia) Htr).
    rewrite (IH (S m) (rs ++ [r])).
    + rewrite <- app_assoc. cbn [app length].
      replace (S m + length rest) with (m + S (length rest)) by lia. reflexivity.
    + rewrite length_app. simpl. lia.
    + lia.
    + reflexivity.
Qed.

Lemma load_transfers_keeps_eleven_aux (curves : list series) (s : OECT) :
  transfer s = [] -> length curves <= 11 ->
  load_transfers (map (pair Vd) curves) s
  = (Ok tt, set_transfer (combine (map (numbered Vd) (seq 0 (length curves))) curves) s).
Proof.
  intros Htr Hlen.
  apply (load_transfers_numbered curves 0 [] s); [reflexivity | simpl; lia | exact Htr].
Qed.

(** X15.  Up to eleven transfer curves taken at the same drain voltage
    and loaded into an empty dictionary are all kept, in loading order,
    under the keys [Vd_0], [Vd_1], ... *)
Theorem load_transfers_keeps_eleven (curves : list series) (s : OECT) :
  transfer s = [] -> length curves <= 11 ->
  load_transfers (map (pair Vd) curves) s
  = (Ok tt, set_transfer (combine (map (numbered Vd) (seq 0 (length curves))) curves) s).
Proof.
  intros Htr Hlen.
  apply (load_transfers_numbered curves 0 [] s); [reflexivity | simpl; lia | exact Htr].
Qed.

(** X16.  The twelfth curve at the same drain voltage is stored under
    [Vd_1], the key of the second: the last key is [Vd_10], and the new
    number is made from its last character.  The dictionary still has
    eleven entries and the second curve is gone. *)
Theorem twelfth_transfer_replaces_second (curves : list series) (r : series) (s : OECT) :
  transfer s = [] -> length curves = 11 ->
  load_transfers (map (pair Vd) (curves ++ [r])) s
  = (Ok tt, set_transfer (combine (map (numbered Vd) (seq 0 11))
                                  (firstn 1 curves ++ r :: skipn 2 curves)) s).
Proof.
  intros Htr Hlen.
  assert (Hsplit : forall (a b : list (string * series)) (st : OECT),
             load_transfers (a ++ b) st
             = match load_transfers a st with
               | (Ok _, st') => load_transfers b st'
               | (Raise e, st') => (Raise e, st')
               end).
  { clear. induction a as [|[v rw] a IH]; intros b st; simpl.
    - destruct (load_transfers b st) as [[[]|] ?]; reflexivity.
    - unfold bindM. destruct (transfer_curve v rw st) as [[u|e] st1]; [apply IH | reflexivity]. }
  rewrite map_app, Hsplit.
  rewrite (load_transfers_keeps_eleven_aux curves s Htr ltac:(lia)).
  rewrite Hlen.
  do 11 (destruct curves as [|? curves]; [discriminate|]).
  destruct curves; [|discriminate]. clear Hlen.
  simpl map. simpl load_transfers. unfold bindM, transfer_curve, reads, lift, writes, bindM.
  cbn [transfer set_transfer].
  unfold transfer_key. change (Vd ++ "_0")%string with (numbered Vd 0).
  cbn [seq map combine dict_mem existsb fst]. rewrite String.eqb_refl.
  cbn [orb length Nat.sub getitem nth_error bind].
  pose proof (numbered_digit Vd 10 ltac:(lia)) as Hd.
  destruct (last_char (numbered Vd 10)) as [ch|]; simpl in Hd; [|discriminate].
  cbn [bind]. rewrite Hd. cbn [bind Nat.eqb Nat.add].
  change (Vd ++ "_" ++ str 1)%string with (numbered Vd 1).
  cbn [dict_set]. rewrite (numbered_eqb Vd 1 0), String.eqb_refl by lia.
  reflexivity.
Qed.
End Keys.

Lemma load_transfers_keeps_eleven_witness :
  load_transfers (map (pair "-0.6"%string) [line_curve; zero_curve; dip_curve]) (init "sg" true)
  = (Ok tt, set_transfer (combine (map (numbered "-0.6") (seq 0 3))
                                  [line_curve; zero_curve; dip_curve]) (init "sg" true)).
Proof.
  apply (load_transfers_keeps_eleven "-0.6" [line_curve; zero_curve; dip_curve]
           (init "sg" true)); [reflexivity | simpl; lia].
Defined.

Lemma twelfth_transfer_replaces_second_witness :
  load_transfers (map (pair "-0.6"%string) (repeat zero_curve 11 ++ [line_curve]))
                 (init "sg" true)
  = (Ok tt, set_transfer (combine (map (numbered "-0.6") (seq 0 11))
                                  (firstn 1 (repeat zero_curve 11)
                                   ++ line_curve :: skipn 2 (repeat zero_curve 11)))
                         (init "sg" true)).
Proof.
  apply (twelfth_transfer_replaces_second "-0.6" (repeat zero_curve 11) line_curve
           (init "sg" true)); reflexivity.
Defined.

(** ** The file list *)

Lemma remove_first_In (f x : string) (l : list string) :
  In x (remove_first f l) -> In x l.
Proof.
  induction l as [|y l IH]; simpl; [tauto|].
  destruct (String.eqb f y); simpl; tauto.
Qed.

Lemma remove_first_keeps (f x : string) (l : list string) :
  x <> f -> In x l -> In x (remove_first f l).
Proof.
  intros Hne. induction l as [|y l IH]; simpl; [tauto|].
  destruct (String.eqb f y) eqn:E.
  - apply String.eqb_eq in E. subst y. intros [H|H]; [congruence | exact H].
  - simpl. tauto.
Qed.

Lemma remove_first_middle (f : string) (pre rest : list string) :
  ~ In f pre -> remove_first f (pre ++ f :: rest) = pre ++ rest.
Proof.
  induction pre as [|y pre IH]; simpl; intro H.
  - now rewrite String.eqb_refl.
  - destruct (String.eqb f y) eqn:E.
    + apply String.eqb_eq in E. subst. tauto.
    + f_equal. apply IH. tauto.
Qed.

Lemma prune_config_sound (fuel : nat) : forall i files x,
  (In x (prune_config fuel i files) -> In x files) /\
  (contains "config" x = false -> In x files -> In x (prune_config fuel i files)).
Proof.
  induction fuel as [|fuel IH]; intros i files x; simpl; [tauto|].
  destruct (nth_error files i) as [f|]; [|tauto].
  destruct (contains "config" f) eqn:E.
  - destruct (IH (S i) (remove_first f files) x) as [H1 H2]. split.
    + intro H. eapply remove_first_In. eauto.
    + intros Hx Hin. apply H2; [exact Hx|].
      apply remove_first_keeps; [|exact Hin]. intros ->. congruence.
  - apply IH.
Qed.

Lemma prune_config_past (fuel i : nat) (files : list string) :
  length files <= i -> prune_config fuel i files = files.
Proof.
  intro H. destruct fuel; simpl; [reflexivity|].
  destruct (nth_error files i) eqn:E; [|reflexivity].
  assert (i < length files) by (apply nth_error_Some; congruence). lia.
Qed.

Lemma prune_config_skips (fuel : nat) : forall pre suf,
  NoDup (pre ++ suf) -> length suf <= fuel ->
  prune_config fuel (length pre) (pre ++ suf) = pre ++ skip_prune suf.
Proof.
  induction fuel as [|fuel IH]; intros pre suf Hnd Hlen.
  - destruct suf; [reflexivity | simpl in Hlen; lia].
  - destruct suf as [|f rest].
    + simpl skip_prune. rewrite !app_nil_r. apply prune_config_past. lia.
    + cbn [prune_config].
      rewrite nth_error_app2, Nat.sub_diag by lia. cbn [nth_error].
      cbn [skip_prune]. simpl in Hlen.
      destruct (contains "config" f) eqn:E.
      * rewrite remove_first_middle
          by (apply NoDup_remove_2 in Hnd; intro Hin; apply Hnd; apply in_or_app; now left).
        apply NoDup_remove_1 in Hnd.
        destruct rest as [|g rest'].
        -- rewrite !app_nil_r. apply prune_config_past. lia.
        -- replace (pre ++ g :: rest') with ((pre ++ [g]) ++ rest')
             by (rewrite <- app_assoc; reflexivity).
           replace (S (length pre)) with (length (pre ++ [g]))
             by (rewrite length_app; simpl; lia).
           rewrite IH.
           ++ rewrite <- app_assoc. reflexivity.
           ++ rewrite <- app_assoc. exact Hnd.
           ++ simpl in Hlen. lia.
      * replace (pre ++ f :: rest) with ((pre ++ [f]) ++ rest)
          by (rewrite <- app_assoc; reflexivity).
        replace (S (length pre)) with (length (pre ++ [f]))
          by (rewrite length_app; simpl; lia).
        rewrite IH.
        -- rewrite <- app_assoc. reflexivity.
        -- rewrite <- app_assoc. exact Hnd.
        -- lia.
Qed.

Section FileList.
Variable path_join : string -> string -> string.
Variable folder : string.
Variable names : list string.

(** X17.  In a folder with a [.cfg] file, the loop that takes the files
    named after [config] out of the list of [txt] files steps over the file
    that follows each one it removes: on distinct paths the list left is
    [skip_prune] of the list of [txt] files. *)
Theorem filelist_skips_after_removal (fl : file_list) :
  NoDup (map (path_join folder) (filter (ends_with "txt") names)) ->
  map (path_join folder) (filter (ends_with ".cfg") names) <> [] ->
  filelist path_join folder names = Ok fl ->
  fl_files fl = skip_prune (map (path_join folder) (filter (ends_with "txt") names)) /\
  fl_config fl = Some (map (path_join folder) (filter (ends_with ".cfg") names)).
Proof.
  intros Hnd Hcfg H. unfold filelist in H.
  destruct (map (path_join folder) (filter (ends_with ".cfg") names)) as [|c cs] eqn:Ec; [congruence|].
  inversion H; subst. simpl. split; [|reflexivity].
  apply (prune_config_skips _ [] (map (path_join folder) (filter (ends_with "txt") names)));
    [exact Hnd | lia].
Qed.

(** X18.  [filelist] only ever returns paths of [txt] files of the
    folder, and it never drops a [txt] file whose path does not contain
    [config]; without any [.cfg] and without any [txt] file it raises
    [IndexError]. *)
Theorem filelist_keeps_data_files :
  (forall fl, filelist path_join folder names = Ok fl ->
              forall f,
                (In f (fl_files fl) ->
                 In f (map (path_join folder) (filter (ends_with "txt") names))) /\
                (contains "config" f = false ->
                 In f (map (path_join folder) (filter (ends_with "txt") names)) ->
                 In f (fl_files fl))) /\
  (map (path_join folder) (filter (ends_with ".cfg") names) = [] ->
   map (path_join folder) (filter (ends_with "txt") names) = [] ->
   filelist path_join folder names = Raise IndexError).
Proof.
  split.
  - intros fl H f. unfold filelist in H.
    destruct (map (path_join folder) (filter (ends_with ".cfg") names)) as [|c cs].
    + apply bind_Ok in H. destruct H as [f0 [_ H]]. inversion H; subst. simpl. tauto.
    + inversion H; subst. simpl. apply prune_config_sound.
  - intros Hc Ht. unfold filelist. rewrite Hc, Ht. reflexivity.
Qed.
End FileList.

Lemma filelist_skips_after_removal_witness :
  let join := fun d n => (d ++ "/" ++ n)%string in
  let names := ["config.cfg"; "config_a.txt"; "config_b.txt"; "transfer_1.txt";
                "notes.md"; "output_1.txt"]%string in
  let fl := {| fl_files := ["dev/config_b.txt"; "dev/transfer_1.txt"; "dev/output_1.txt"]%string;
               fl_config := Some ["dev/config.cfg"%string];
               fl_make_config := false |} in
  filelist join "dev" names = Ok fl /\
  fl_files fl = skip_prune (map (join "dev"%string) (filter (ends_with "txt") names)) /\
  fl_config fl = Some (map (join "dev"%string) (filter (ends_with ".cfg") names)).
Proof.
  intros join names fl. split; [vm_compute; reflexivity|].
  apply (filelist_skips_after_removal join "dev" names fl).
  - vm_compute. repeat constructor; simpl; intuition discriminate.
  - discriminate.
  - vm_compute. reflexivity.
Defined.

Lemma filelist_keeps_data_files_witness :
  let join := fun d n => (d ++ "/" ++ n)%string in
  let names := ["config.cfg"; "config_a.txt"; "transfer_1.txt"]%string in
  filelist join "dev" names
  = Ok {| fl_files := prune_config 2 0 ["dev/config_a.txt"; "dev/transfer_1.txt"]%string;
          fl_config := Some ["dev/config.cfg"%string];
          fl_make_config := false |} /\
  In "dev/transfer_1.txt"%string
     (prune_config 2 0 ["dev/config_a.txt"; "dev/transfer_1.txt"]%string).
Proof.
  intros join names. split; [reflexivity|].
  refine (proj2 (proj1 (filelist_keeps_data_files join "dev" names)
                   {| fl_files := prune_config 2 0 ["dev/config_a.txt"; "dev/transfer_1.txt"]%string;
                      fl_config := Some ["dev/config.cfg"%string];
                      fl_make_config := false |} _ "dev/transfer_1.txt"%string) _ _).
  - reflexivity.
  - reflexivity.
  - vm_compute. auto.
Defined.
